(** * Edge image cache: key validation, content sniffing, cache keys,
      cache-store policy, origin gateway and the two request handlers.

    A shallow embedding of [packages/cdn/src/cache.ts] (the cache helpers
    and the Hono application) and [packages/cdn/src/origin.ts].

    JavaScript strings are modelled by [string].  For paths, keys, header
    values and serialised URLs a character is a code unit below 256; the
    names and values of query parameters are held as the bytes of their
    UTF-8 form, which is what the form-urlencoded parser and serializer
    work on.  The origin gateway is given a second time for keys that are
    any string of the language, lists of UTF-16 code units ([Utf16]).
    What the code takes from the platform and does not define (the URL
    parser, the network, the cache store's decision to keep a response)
    is a parameter. *)

From Stdlib Require Import ZArith Bool List Ascii String Lia Permutation Sorted.
From stdpp Require Import gmap strings.
Import ListNotations.

Local Open Scope string_scope.
Local Open Scope list_scope.
Local Open Scope Z_scope.

(** ** JavaScript values that the code throws and returns *)

(** A thrown value.  [JSError name message] is an instance of [Error] (or of
    a subclass such as [TypeError] or [DOMException]); [NonError] is any
    thrown value that is not; [HTTPException] is hono's exception, an
    [Error] that carries a status. *)
Inductive Thrown : Type :=
| JSError (name message : string)
| NonError
| HTTPException (status : Z) (message : string).

Inductive Result (A : Type) : Type :=
| Return (a : A)
| Throw (e : Thrown).
Arguments Return {A} a.
Arguments Throw {A} e.

Definition instanceofError (e : Thrown) : bool :=
  match e with
  | JSError _ _ => true
  | NonError => false
  | HTTPException _ _ => true
  end.

Definition error_name (e : Thrown) : string :=
  match e with
  | JSError n _ => n
  | NonError => ""
  | HTTPException _ _ => "Error"
  end.

Definition error_message (e : Thrown) : string :=
  match e with
  | JSError _ m => m
  | NonError => ""
  | HTTPException _ m => m
  end.

(** ** String built-ins *)

Module JS.

(** [!s] for a string: only the empty string is falsy. *)
Definition falsy (s : string) : bool :=
  match s with
  | EmptyString => true
  | String _ _ => false
  end.

(** [s.startsWith(p)] *)
Fixpoint startsWith (p s : string) : bool :=
  match p, s with
  | EmptyString, _ => true
  | String a p', String b s' => Ascii.eqb a b && startsWith p' s'
  | String _ _, EmptyString => false
  end.

(** [s.includes(sub)] *)
Fixpoint includes (sub s : string) : bool :=
  startsWith sub s
  || match s with
     | EmptyString => false
     | String _ s' => includes sub s'
     end.

Definition code (c : ascii) : Z := Z.of_N (N_of_ascii c).

Definition in_range (lo hi : Z) (c : ascii) : bool :=
  (lo <=? code c) && (code c <=? hi).

Definition is_digit (c : ascii) : bool := in_range 48 57 c.
Definition is_lower (c : ascii) : bool := in_range 97 122 c.
Definition is_upper (c : ascii) : bool := in_range 65 90 c.

(** [\w] of a regular expression without the [u] and [i] flags *)
Definition is_word (c : ascii) : bool :=
  is_lower c || is_upper c || is_digit c || Ascii.eqb c "_".

(** [\s] restricted to code units below 256: TAB, LF, VT, FF, CR, SP and
    NBSP. *)
Definition is_space (c : ascii) : bool :=
  in_range 9 13 c || (code c =? 32) || (code c =? 160).

(** [String.prototype.toLowerCase] on code units below 256: A-Z and the
    Latin-1 capitals (C0-DE except D7) move up by 32. *)
Definition lower_char (c : ascii) : ascii :=
  if is_upper c || (in_range 192 222 c && negb (code c =? 215))
  then ascii_of_N (N_of_ascii c + 32)
  else c.

Fixpoint toLowerCase (s : string) : string :=
  match s with
  | EmptyString => EmptyString
  | String c s' => String (lower_char c) (toLowerCase s')
  end.

Fixpoint all_chars (p : ascii -> bool) (s : string) : bool :=
  match s with
  | EmptyString => true
  | String c s' => p c && all_chars p s'
  end.

(** White space at the start of [s] removed: [\s*] of a regular
    expression, and the trimming that [parseInt] starts with. *)
Fixpoint skip_spaces (s : string) : string :=
  match s with
  | EmptyString => EmptyString
  | String c s' => if is_space c then skip_spaces s' else s
  end.

End JS.

(** ** cache.ts (application part): key extraction and validation *)

(** [path.replace(/^\/images\//, "")] followed by [key || null] *)
Definition strip_prefix (p s : string) : string :=
  if JS.startsWith p s then substring (String.length p) (String.length s - String.length p) s else s.

Definition extractKeyFromPath (path : string) : option string :=
  let key := strip_prefix "/images/" path in
  if JS.falsy key then None else Some key.

(** The character class [[a-zA-Z0-9\-_\/.]] *)
Definition safeChar (c : ascii) : bool :=
  JS.is_lower c || JS.is_upper c || JS.is_digit c
  || Ascii.eqb c "-" || Ascii.eqb c "_" || Ascii.eqb c "/" || Ascii.eqb c ".".

(** [/^[a-zA-Z0-9\-_\/.]+$/.test(key)]: one or more characters, every one
    in the class; without the [m] flag [$] is the end of the input. *)
Definition safePattern_test (key : string) : bool :=
  negb (JS.falsy key) && JS.all_chars safeChar key.

Definition validateKey (key : string) : bool :=
  if JS.falsy key || JS.includes ".." key || JS.startsWith "/" key
     || JS.includes "//" key
  then false
  else safePattern_test key.

(** ** cache.ts (application part): the content sniffer *)

(** An [ArrayBuffer] is the list of its bytes. *)
Definition ArrayBuffer : Type := list Z.

Definition byteLength (b : ArrayBuffer) : Z := Z.of_nat (List.length b).

(** [bytes[i] === v]; past the end [bytes[i]] is [undefined], which is
    equal to no number. *)
Definition byte_is (bytes : list Z) (i : nat) (v : Z) : bool :=
  match nth_error bytes i with
  | Some b => b =? v
  | None => false
  end.

Definition unsupported : Thrown := JSError "Error" "Unsupported file type".

Definition detectMimeType (buffer : ArrayBuffer) : Result string :=
  let bytes := firstn 16 buffer in
  if byte_is bytes 0 0xff && byte_is bytes 1 0xd8 && byte_is bytes 2 0xff
  then Return "image/jpeg"
  else if byte_is bytes 0 0x89 && byte_is bytes 1 0x50
          && byte_is bytes 2 0x4e && byte_is bytes 3 0x47
  then Return "image/png"
  else if byte_is bytes 0 0x47 && byte_is bytes 1 0x49 && byte_is bytes 2 0x46
  then Return "image/gif"
  else if byte_is bytes 8 0x57 && byte_is bytes 9 0x45
          && byte_is bytes 10 0x42 && byte_is bytes 11 0x50
  then Return "image/webp"
  else if byte_is bytes 4 0x66 && byte_is bytes 5 0x74
          && byte_is bytes 6 0x79 && byte_is bytes 7 0x70
          && ((byte_is bytes 8 0x61 && byte_is bytes 9 0x76
               && byte_is bytes 10 0x69 && byte_is bytes 11 0x66)
              || (byte_is bytes 8 0x61 && byte_is bytes 9 0x76
                  && byte_is bytes 10 0x69 && byte_is bytes 11 0x73))
  then Return "image/avif"
  else Throw unsupported.

(** The signature table of the specification, read as data: each row is a
    MIME type and its alternatives; an alternative is a list of
    (offset, expected bytes) segments that must all be present. *)
Record Signature : Type := {
  sig_mime : string;
  sig_alts : list (list (nat * list Z))
}.

Definition signature_table : list Signature :=
  [ {| sig_mime := "image/jpeg"; sig_alts := [[(0%nat, [0xff; 0xd8; 0xff])]] |};
    {| sig_mime := "image/png";  sig_alts := [[(0%nat, [0x89; 0x50; 0x4e; 0x47])]] |};
    {| sig_mime := "image/gif";  sig_alts := [[(0%nat, [0x47; 0x49; 0x46])]] |};
    {| sig_mime := "image/webp"; sig_alts := [[(8%nat, [0x57; 0x45; 0x42; 0x50])]] |};
    {| sig_mime := "image/avif";
       sig_alts := [ [(4%nat, [0x66; 0x74; 0x79; 0x70]); (8%nat, [0x61; 0x76; 0x69; 0x66])];
                     [(4%nat, [0x66; 0x74; 0x79; 0x70]); (8%nat, [0x61; 0x76; 0x69; 0x73])] ] |} ].

(** The bytes at positions [off], [off+1], ... are exactly [pat]. *)
Definition segment_at (bytes : list Z) (seg : nat * list Z) : Prop :=
  firstn (List.length (snd seg)) (skipn (fst seg) bytes) = snd seg.

Definition sig_matches (bytes : list Z) (s : Signature) : Prop :=
  Exists (fun alt => Forall (segment_at bytes) alt) (sig_alts s).

(** Number of leading bytes a signature alternative looks at. *)
Definition alt_extent (alt : list (nat * list Z)) : nat :=
  fold_right (fun seg n => Nat.max (fst seg + List.length (snd seg)) n) 0%nat alt.

(** ** Reading the specification's words about keys *)

(** [sub] occurs somewhere in [s]. *)
Definition contains (sub s : string) : Prop :=
  exists pre post : string, s = (pre ++ sub ++ post)%string.

(** [s] starts with [p]. *)
Definition begins_with (p s : string) : Prop :=
  exists rest : string, s = (p ++ rest)%string.

(** The allowed characters, one by one. *)
Definition allowed_chars : list ascii :=
  list_ascii_of_string
    "abcdefghijklmnopqrstuvwxyzABCDEFGHIJKLMNOPQRSTUVWXYZ0123456789-_/.".

Definition allowed (c : ascii) : Prop := In c allowed_chars.

Definition chars (s : string) : list ascii := list_ascii_of_string s.

(** Executable reading of the table: the first row with a matching
    alternative decides. *)
Fixpoint segment_atb (bytes : list Z) (off : nat) (pat : list Z) : bool :=
  match pat with
  | [] => true
  | v :: pat' => byte_is bytes off v && segment_atb bytes (S off) pat'
  end.

Definition sig_matchesb (bytes : list Z) (s : Signature) : bool :=
  existsb (forallb (fun seg => segment_atb bytes (fst seg) (snd seg))) (sig_alts s).

Definition sniff_by_table (bytes : list Z) : Result string :=
  match find (sig_matchesb bytes) signature_table with
  | Some s => Return (sig_mime s)
  | None => Throw unsupported
  end.

(** ** URLs, as the platform's URL class holds them *)

(** A URL record: the parsed components of a URL.  [host] is the serialised
    host and is absent for URLs without an authority; [path] is the
    serialised path. *)
Record URL : Type := {
  scheme : string;
  username : string;
  password : string;
  host : option string;
  port : option Z;
  path : string;
  query : option string;
  fragment : option string
}.

Definition set_query (q : option string) (u : URL) : URL :=
  {| scheme := scheme u; username := username u; password := password u;
     host := host u; port := port u; path := path u;
     query := q; fragment := fragment u |}.

Module Url.

Definition digit_char (d : Z) : ascii := ascii_of_N (Z.to_N (48 + d)).

(** Decimal digits of a non-negative number, most significant first. *)
Fixpoint decimal_fuel (fuel : nat) (n : Z) (acc : string) : string :=
  match fuel with
  | O => acc
  | S fuel' =>
      let acc' := String (digit_char (n mod 10)) acc in
      if n <? 10 then acc' else decimal_fuel fuel' (n / 10) acc'
  end.

Definition decimal (n : Z) : string :=
  decimal_fuel (S (Z.to_nat (Z.log2 n))) n "".

Definition hex_char (d : Z) : ascii :=
  if d <? 10 then ascii_of_N (Z.to_N (48 + d)) else ascii_of_N (Z.to_N (55 + d)).

(** ["%"] followed by the two upper-case hexadecimal digits of a byte *)
Definition percent_byte (c : ascii) (rest : string) : string :=
  String "%" (String (hex_char (JS.code c / 16))
                     (String (hex_char (JS.code c mod 16)) rest)).

Definition is_alnum (c : ascii) : bool :=
  JS.is_digit c || JS.is_lower c || JS.is_upper c.

(** The URL serializer: [url.toString()] and [url.href]. *)
Definition href (u : URL) : string :=
  (scheme u ++ ":"
   ++ match host u with
      | Some h =>
          "//"
          ++ (if JS.falsy (username u) && JS.falsy (password u) then ""
              else username u
                   ++ (if JS.falsy (password u) then "" else ":" ++ password u)
                   ++ "@")
          ++ h
          ++ match port u with
             | Some p => ":" ++ decimal p
             | None => ""
             end
      | None => if JS.startsWith "//" (path u) then "/." else ""
      end
   ++ path u
   ++ match query u with Some q => "?" ++ q | None => "" end
   ++ match fragment u with Some f => "#" ++ f | None => "" end)%string.

(** Schemes whose origin is the (scheme, host, port) tuple. *)
Definition tuple_origin_scheme (s : string) : bool :=
  String.eqb s "http" || String.eqb s "https" || String.eqb s "ws"
  || String.eqb s "wss" || String.eqb s "ftp".

(** [url.origin]: the serialised origin; every other scheme has an
    opaque origin, serialised as ["null"].  ([blob:] URLs, whose origin
    is that of the URL they embed, are left out: they have no authority
    and cannot serve as a base URL.) *)
Definition origin (u : URL) : string :=
  if tuple_origin_scheme (scheme u) then
    (scheme u ++ "://"
     ++ match host u with Some h => h | None => "" end
     ++ match port u with Some p => ":" ++ decimal p | None => "" end)%string
  else "null".

(** The query percent-encode set, with ['] for the special schemes. *)
Definition special_scheme (s : string) : bool :=
  tuple_origin_scheme s || String.eqb s "file".

Definition query_escaped (special : bool) (c : ascii) : bool :=
  (JS.code c <=? 32) || (126 <? JS.code c)
  || Ascii.eqb c "034" || Ascii.eqb c "#" || Ascii.eqb c "<" || Ascii.eqb c ">"
  || (special && Ascii.eqb c "'").

(** The platform's code units above 127 are written as the two bytes of
    their UTF-8 form. *)
Definition utf8_lead (c : ascii) : ascii :=
  ascii_of_N (Z.to_N (Z.lor 192 (Z.shiftr (JS.code c) 6))).
Definition utf8_trail (c : ascii) : ascii :=
  ascii_of_N (Z.to_N (Z.lor 128 (Z.land (JS.code c) 63))).

Definition percent_char (c : ascii) (rest : string) : string :=
  if JS.code c <? 128 then percent_byte c rest
  else percent_byte (utf8_lead c) (percent_byte (utf8_trail c) rest).

Definition tab_or_newline (c : ascii) : bool :=
  (JS.code c =? 9) || (JS.code c =? 10) || (JS.code c =? 13).

Fixpoint query_encode (special : bool) (s : string) : string :=
  match s with
  | EmptyString => EmptyString
  | String c s' =>
      if tab_or_newline c then query_encode special s'
      else if query_escaped special c then percent_char c (query_encode special s')
      else String c (query_encode special s')
  end.

(** [url.search = value]: the empty string removes the query; otherwise
    one leading [?] is dropped and the rest is parsed as a query. *)
Definition set_search (value : string) (u : URL) : URL :=
  if JS.falsy value then set_query None u
  else
    let input := match value with
                 | String "?" rest => rest
                 | _ => value
                 end in
    set_query (Some (query_encode (special_scheme (scheme u)) input)) u.

End Url.

(** ** UTF-8

    The bytes of a string and its code points, as the platform's encoder
    and decoder relate them. *)
Module Utf8.

Definition byte (n : Z) : ascii := ascii_of_N (Z.to_N n).

(** The bytes of one code point. *)
Definition encode_point (cp : Z) : list ascii :=
  if cp <? 0x80 then [byte cp]
  else if cp <? 0x800 then [byte (0xC0 + cp / 64); byte (0x80 + cp mod 64)]
  else if cp <? 0x10000 then
    [byte (0xE0 + cp / 4096); byte (0x80 + (cp / 64) mod 64);
     byte (0x80 + cp mod 64)]
  else
    [byte (0xF0 + cp / 262144); byte (0x80 + (cp / 4096) mod 64);
     byte (0x80 + (cp / 64) mod 64); byte (0x80 + cp mod 64)].

Definition replacement : Z := 0xFFFD.

(** The decoder.  [needed] is the number of bytes the sequence being read
    still lacks, [cp] the code point read so far and [lower], [upper] the
    range the next byte must lie in; a byte that cannot continue the
    sequence ends it with U+FFFD and is read again as the start of a new
    one. *)
Fixpoint decode_from (cp : Z) (needed : nat) (lower upper : Z) (s : string)
  : list Z :=
  match s with
  | EmptyString =>
      match needed with
      | O => []
      | S _ => [replacement]
      end
  | String c s' =>
      let b := JS.code c in
      let start :=
        if b <? 0x80 then b :: decode_from 0 0 0x80 0xBF s'
        else if (0xC2 <=? b) && (b <=? 0xDF)
        then decode_from (b - 0xC0) 1 0x80 0xBF s'
        else if (0xE0 <=? b) && (b <=? 0xEF)
        then decode_from (b - 0xE0) 2
                         (if b =? 0xE0 then 0xA0 else 0x80)
                         (if b =? 0xED then 0x9F else 0xBF) s'
        else if (0xF0 <=? b) && (b <=? 0xF4)
        then decode_from (b - 0xF0) 3
                         (if b =? 0xF0 then 0x90 else 0x80)
                         (if b =? 0xF4 then 0x8F else 0xBF) s'
        else replacement :: decode_from 0 0 0x80 0xBF s' in
      match needed with
      | O => start
      | S n =>
          if (lower <=? b) && (b <=? upper)
          then
            let cp' := cp * 64 + (b - 0x80) in
            match n with
            | O => cp' :: decode_from 0 0 0x80 0xBF s'
            | S _ => decode_from cp' n 0x80 0xBF s'
            end
          else replacement :: start
      end
  end.

Definition decode (s : string) : list Z := decode_from 0 0 0x80 0xBF s.

(** The UTF-16 code units of one code point. *)
Definition units_of_point (cp : Z) : list Z :=
  if cp <? 0x10000 then [cp]
  else [0xD800 + (cp - 0x10000) / 1024; 0xDC00 + (cp - 0x10000) mod 1024].

(** The code units of the string whose bytes are [s]. *)
Definition code_units (s : string) : list Z :=
  flat_map units_of_point (decode s).

(** The encoder: the bytes of a list of code points. *)
Definition encode (points : list Z) : string :=
  string_of_list_ascii (flat_map encode_point points).

(** A code point that is not a surrogate. *)
Definition scalar (cp : Z) : bool :=
  (0 <=? cp) && (cp <=? 0x10FFFF)
  && negb ((0xD800 <=? cp) && (cp <=? 0xDFFF)).

(** [s] is the UTF-8 form of a string: it decodes to code points that
    are not surrogates, and these encode to [s] again (where the decoder
    had to put U+FFFD for an ill-formed sequence they do not). *)
Definition well_formed (s : string) : bool :=
  forallb scalar (decode s) && String.eqb (encode (decode s)) s.

End Utf8.

(** ** application/x-www-form-urlencoded, as [URLSearchParams] uses it

    A name or a value is held as the UTF-8 bytes of the string.  The
    parser of the platform percent-decodes a name to bytes and then
    decodes the bytes as UTF-8; on this representation the second step
    changes nothing as long as the bytes are well-formed UTF-8.  Where
    they are not (a query such as [?a=%FF]), the platform puts U+FFFD in
    the place of each ill-formed sequence, which [decode] below does not
    do: it keeps the bytes, and what is said of such a query is said of
    the bytes. *)
Module Form.

(** Bytes the serializer leaves as they are: ASCII alphanumerics and
    [*], [-], [.], [_]. *)
Definition unreserved (c : ascii) : bool :=
  Url.is_alnum c || Ascii.eqb c "*" || Ascii.eqb c "-" || Ascii.eqb c "."
  || Ascii.eqb c "_".

Fixpoint encode (s : string) : string :=
  match s with
  | EmptyString => EmptyString
  | String c s' =>
      if Ascii.eqb c " " then String "+" (encode s')
      else if unreserved c then String c (encode s')
      else Url.percent_byte c (encode s')
  end.

(** The serializer: [name=value] tuples joined by [&]. *)
Fixpoint serialize (l : list (string * string)) : string :=
  match l with
  | [] => ""
  | [(n, v)] => (encode n ++ "=" ++ encode v)%string
  | (n, v) :: l' => (encode n ++ "=" ++ encode v ++ "&" ++ serialize l')%string
  end.

Definition hex_value (c : ascii) : option Z :=
  if JS.is_digit c then Some (JS.code c - 48)
  else if JS.in_range 65 70 c then Some (JS.code c - 55)
  else if JS.in_range 97 102 c then Some (JS.code c - 87)
  else None.

(** Percent-decoding, with [+] read as a space first. *)
Fixpoint decode (s : string) : string :=
  match s with
  | EmptyString => EmptyString
  | String c s' =>
      if Ascii.eqb c "+" then String " " (decode s')
      else if Ascii.eqb c "%" then
        match s' with
        | String h (String l s'') =>
            match hex_value h, hex_value l with
            | Some a, Some b =>
                String (ascii_of_N (Z.to_N (16 * a + b))) (decode s'')
            | _, _ => String c (decode s')
            end
        | _ => String c (decode s')
        end
      else String c (decode s')
  end.

(** Split at every occurrence of [sep]. *)
Fixpoint split (sep : ascii) (s : string) : list string :=
  match s with
  | EmptyString => [EmptyString]
  | String c s' =>
      if Ascii.eqb c sep then EmptyString :: split sep s'
      else match split sep s' with
           | [] => [String c EmptyString]
           | w :: ws => String c w :: ws
           end
  end.

(** Cut at the first [=]: the name, and the value if there is one. *)
Fixpoint cut (s : string) : string * string :=
  match s with
  | EmptyString => (EmptyString, EmptyString)
  | String c s' =>
      if Ascii.eqb c "=" then (EmptyString, s')
      else let '(n, v) := cut s' in (String c n, v)
  end.

(** The parser: empty sequences between [&] are skipped. *)
Definition parse (q : string) : list (string * string) :=
  List.map (fun w => let '(n, v) := cut w in (decode n, decode v))
           (List.filter (fun w => negb (JS.falsy w)) (split "&" q)).

End Form.

(** [url.searchParams]: the list of the URL's query. *)
Definition searchParams (u : URL) : list (string * string) :=
  match query u with
  | Some q => Form.parse q
  | None => []
  end.

(** ** [Array.prototype.sort]

    The language requires a stable sort; the result of sorting with a
    consistent comparator is therefore the same for every implementation.
    It is computed here by insertion, an element moving left past those
    that the comparator puts strictly after it. *)
Section ArraySort.
Context {A : Type} (comparefn : A -> A -> Z).

Fixpoint sort_insert (x : A) (l : list A) : list A :=
  match l with
  | [] => [x]
  | y :: l' => if comparefn x y <=? 0 then x :: y :: l'
               else y :: sort_insert x l'
  end.

Definition Array_sort (l : list A) : list A :=
  fold_right sort_insert [] l.
End ArraySort.

(** ** cache.ts (cache helpers) *)

(** [a < b] on strings: the code units are compared one by one, and a
    proper prefix comes first. *)
Fixpoint units_ltb (a b : list Z) : bool :=
  match a, b with
  | _, [] => false
  | [], _ :: _ => true
  | x :: a', y :: b' =>
      if x <? y then true
      else if y <? x then false
      else units_ltb a' b'
  end.

Definition string_lt (a b : string) : bool :=
  units_ltb (Utf8.code_units a) (Utf8.code_units b).

(** The comparator of [createCacheKey]: entries are compared by name. *)
Definition compareEntries (x y : string * string) : Z :=
  let a := fst x in
  let b := fst y in
  if string_lt a b then -1
  else if string_lt b a then 1
  else 0.

(** [normalized.searchParams.append(key, value)]: the entry is added at the
    end of the list and the URL's query is rewritten from the list. *)
Definition searchParams_append (n : URL * list (string * string))
           (key value : string) : URL * list (string * string) :=
  let l := snd n ++ [(key, value)] in
  (set_query (Some (Form.serialize l)) (fst n), l).

Definition createCacheKey (url : URL) : string :=
  let params := searchParams url in
  let sortedParams := Array_sort compareEntries params in
  (* new URL(url); normalized.search = "" : the list is emptied too *)
  let normalized := (Url.set_search "" url, @nil (string * string)) in
  let normalized :=
    fold_left (fun n kv => searchParams_append n (fst kv) (snd kv))
              sortedParams normalized in
  Url.href (fst normalized).

(** Reading the specification's words about cache keys. *)

(** The entries of a parameter list that carry the name [n], in the order
    in which they occur. *)
Definition entries_named (n : string) (l : list (string * string))
  : list (string * string) :=
  List.filter (fun kv => String.eqb (fst kv) n) l.

(** [x] does not come after [y] in the order of names. *)
Definition name_le (x y : string * string) : Prop :=
  string_lt (fst y) (fst x) = false.

(** Two URLs that differ in their query at most. *)
Definition same_but_query (u1 u2 : URL) : Prop :=
  scheme u1 = scheme u2 /\ username u1 = username u2
  /\ password u1 = password u2 /\ host u1 = host u2 /\ port u1 = port u2
  /\ path u1 = path u2 /\ fragment u1 = fragment u2.

(** Every name and every value of the list is the UTF-8 form of a string:
    the parameters are then what the platform's parser gives for the
    query they were read from. *)
Definition well_formed_params (l : list (string * string)) : bool :=
  forallb (fun kv => Utf8.well_formed (fst kv) && Utf8.well_formed (snd kv)) l.

(** ** Headers, requests, responses and the cache store *)

Definition Headers : Type := list (string * string).

Module Http.

(** Header names are compared without regard to ASCII case. *)
Definition byte_lower (c : ascii) : ascii :=
  if JS.is_upper c then ascii_of_N (N_of_ascii c + 32) else c.

Fixpoint byte_lowercase (s : string) : string :=
  match s with
  | EmptyString => EmptyString
  | String c s' => String (byte_lower c) (byte_lowercase s')
  end.

Definition same_name (a b : string) : bool :=
  String.eqb (byte_lowercase a) (byte_lowercase b).

Fixpoint join (sep : string) (l : list string) : string :=
  match l with
  | [] => ""
  | [v] => v
  | v :: l' => (v ++ sep ++ join sep l')%string
  end.

(** [headers.get(name)]: [null] when no header of that name is present,
    otherwise the values of that name joined by a comma and a space. *)
Definition get (h : Headers) (name : string) : option string :=
  match List.filter (fun kv => same_name (fst kv) name) h with
  | [] => None
  | l => Some (join ", " (List.map snd l))
  end.

(** [headers.has(name)] *)
Definition has (h : Headers) (name : string) : bool :=
  existsb (fun kv => same_name (fst kv) name) h.

(** [headers.set(name, value)]: the first header of that name takes the
    value and the others are removed; a new name is added at the end. *)
Fixpoint set (h : Headers) (name value : string) : Headers :=
  match h with
  | [] => [(name, value)]
  | (n, v) :: h' =>
      if same_name n name
      then (n, value) :: List.filter (fun kv => negb (same_name (fst kv) name)) h'
      else (n, v) :: set h' name value
  end.

End Http.

(** A JSON value of the kind the handlers answer with. *)
Inductive Json : Type :=
| JString (s : string)
| JBool (b : bool).

(** A body is a sequence of bytes or, for the answers built with
    [c.json], the object that is serialised. *)
Inductive Body : Type :=
| Bytes (b : ArrayBuffer)
| JsonBody (fields : list (string * Json)).

Record Response : Type := {
  status : Z;
  statusText : string;
  headers : Headers;
  body : Body
}.

(** [response.ok] *)
Definition ok (r : Response) : bool := (200 <=? status r) && (status r <=? 299).

(** [response.clone()]: a second response with the same status, headers
    and body. *)
Definition clone (r : Response) : Response := r.

(** An incoming request.  [url] is the parsed form of [request.url], so
    that [new URL(request.url)] is [url]; [req_path] is hono's
    [c.req.path]; [arrayBuffer] is what reading the body gives. *)
Record Request : Type := {
  url : URL;
  req_path : string;
  req_headers : Headers;
  arrayBuffer : Result ArrayBuffer
}.

(** [caches.default]: the responses it holds by key, the list of the
    [cache.put] calls made so far, and the store's own decision on each
    call.  The platform does not promise to keep what it is given: a
    [cache.put] may be refused or dropped (a partial response, a header the
    store does not accept, a store that is switched off), and the code
    learns nothing of it, since the promise of [putCache] is handed to
    [waitUntil].  [keeps c key r] says whether the store [c] keeps [r]
    under [key]; the code cannot read it. *)
Record Cache : Type := {
  entries : gmap string Response;
  puts : list (string * Response);
  keeps : string -> Response -> bool
}.

Definition cache_match (key : string) (c : Cache) : option Response :=
  entries c !! key.

Definition cache_put (key : string) (r : Response) (c : Cache) : Cache :=
  {| entries := if keeps c key r then <[key := r]> (entries c) else entries c;
     puts := puts c ++ [(key, r)];
     keeps := keeps c |}.

(** ** cache.ts (cache helpers): [matchCache] and [putCache] *)

Definition matchCache (request : Request) (cache : Cache) : option Response :=
  let cacheKey := createCacheKey (url request) in
  cache_match cacheKey cache.

Module MaxAge.

Definition is_word_opt (c : option ascii) : bool :=
  match c with
  | Some c => JS.is_word c
  | None => false
  end.

Definition head (s : string) : option ascii :=
  match s with
  | EmptyString => None
  | String c _ => Some c
  end.

(** [\b] between the character before (if any) and the one after. *)
Definition boundary (prev next : option ascii) : bool :=
  xorb (is_word_opt prev) (is_word_opt next).

(** Strip a literal prefix. *)
Fixpoint literal (p s : string) : option string :=
  match p, s with
  | EmptyString, _ => Some s
  | String a p', String b s' => if Ascii.eqb a b then literal p' s' else None
  | String _ _, EmptyString => None
  end.

(** [\bmax-age\s*=\s*0\b] anchored where [s] starts, [prev] being the
    character before. *)
Definition match_here (prev : option ascii) (s : string) : bool :=
  boundary prev (head s)
  && match literal "max-age" s with
     | Some r1 =>
         match literal "=" (JS.skip_spaces r1) with
         | Some r2 =>
             match literal "0" (JS.skip_spaces r2) with
             | Some r3 => boundary (Some "0"%char) (head r3)
             | None => false
             end
         | None => false
         end
     | None => false
     end.

Fixpoint search (prev : option ascii) (s : string) : bool :=
  match_here prev s
  || match s with
     | EmptyString => false
     | String c s' => search (Some c) s'
     end.

(** [/\bmax-age\s*=\s*0\b/.test(s)] *)
Definition test (s : string) : bool := search None s.

End MaxAge.

Definition putCache (request : Request) (response : Response) (cache : Cache)
  : Cache :=
  match Http.get (headers response) "Cache-Control" with
  | None => cache
  | Some cacheControl =>
      if JS.falsy cacheControl then cache
      else
        let normalizedCacheControl := JS.toLowerCase cacheControl in
        if JS.includes "no-store" normalizedCacheControl
           || JS.includes "private" normalizedCacheControl
           || MaxAge.test normalizedCacheControl
        then cache
        else
          let cacheKey := createCacheKey (url request) in
          cache_put cacheKey (clone response) cache
  end.

(** Reading the specification's words about the cache policy. *)

Definition all_spaces (s : string) : Prop :=
  forall c, In c (chars s) -> JS.is_space c = true.

Definition last_char (s : string) : option ascii :=
  List.last (List.map Some (chars s)) None.

(** The pattern [\bmax-age\s*=\s*0\b] occurs in [s]: the letters
    [max-age], white space or none, [=], white space or none and the digit
    [0], with no letter, digit or underscore just before the [m] nor just
    after the [0]. *)
Definition max_age_zero_pattern (s : string) : Prop :=
  exists pre ws1 ws2 post : string,
    s = (pre ++ "max-age" ++ ws1 ++ "=" ++ ws2 ++ "0" ++ post)%string
    /\ all_spaces ws1 /\ all_spaces ws2
    /\ MaxAge.is_word_opt (last_char pre) = false
    /\ MaxAge.is_word_opt (MaxAge.head post) = false.

(** The condition on the value of the header under which [putCache]
    goes on to the store. *)
Definition cacheable (value : string) : Prop :=
  ~ contains "no-store" (JS.toLowerCase value)
  /\ ~ contains "private" (JS.toLowerCase value)
  /\ ~ max_age_zero_pattern (JS.toLowerCase value).

(** The last character of [pre], or [prev] when [pre] is empty. *)
Definition last_or (prev : option ascii) (pre : string) : option ascii :=
  List.last (List.map Some (chars pre)) prev.

(** The response carries a non-empty Cache-Control header that allows
    storing. *)
Definition carries_nonempty_cacheable_header (response : Response) : Prop :=
  exists v, Http.get (headers response) "Cache-Control" = Some v
            /\ v <> "" /\ cacheable v.

(** The directives of a Cache-Control value, as the specification speaks
    of them: the value is a list of directives separated by commas, a
    directive is a name, or a name and an argument separated by [=], and
    white space around either does not count. *)
Module Directive.

Fixpoint trim_right (s : string) : string :=
  match s with
  | EmptyString => EmptyString
  | String c s' =>
      match trim_right s' with
      | EmptyString => if JS.is_space c then EmptyString else String c EmptyString
      | String d r => String c (String d r)
      end
  end.

Definition trim (s : string) : string := trim_right (JS.skip_spaces s).

Fixpoint split_at (sep : ascii) (s : string) : list string :=
  match s with
  | EmptyString => [EmptyString]
  | String c s' =>
      if Ascii.eqb c sep then EmptyString :: split_at sep s'
      else match split_at sep s' with
           | [] => [String c EmptyString]
           | w :: ws => String c w :: ws
           end
  end.

(** The name of a directive and its argument, if it has one. *)
Fixpoint name_and_argument (s : string) : string * option string :=
  match s with
  | EmptyString => (EmptyString, None)
  | String c s' =>
      if Ascii.eqb c "=" then (EmptyString, Some s')
      else let '(n, a) := name_and_argument s' in (String c n, a)
  end.

Definition parse (value : string) : list (string * option string) :=
  List.map (fun d => let '(n, a) := name_and_argument d in
                     (trim n, option_map trim a))
           (split_at "," value).

(** A number equal to zero: one digit [0] or more, and nothing else. *)
Definition is_zero (s : string) : bool :=
  negb (JS.falsy s) && JS.all_chars (fun c => Ascii.eqb c "0") s.

(** The directive is [max-age] with an argument equal to zero. *)
Definition max_age_zero (d : string * option string) : bool :=
  String.eqb (fst d) "max-age"
  && match snd d with
     | Some a => is_zero a
     | None => false
     end.

End Directive.

(** The value holds a [max-age] directive equal to zero. *)
Definition has_max_age_zero (value : string) : bool :=
  existsb Directive.max_age_zero (Directive.parse value).

(** The condition under which the specification has the response stored:
    it carries a Cache-Control header whose value, case apart, contains
    neither [no-store] nor [private] nor a [max-age] directive equal to
    zero. *)
Definition carries_cacheable_header (response : Response) : Prop :=
  exists v, Http.get (headers response) "Cache-Control" = Some v
            /\ ~ contains "no-store" (JS.toLowerCase v)
            /\ ~ contains "private" (JS.toLowerCase v)
            /\ has_max_age_zero (JS.toLowerCase v) = false.

(** ** The platform and the effects of a handler *)

(** An outbound request, as [fetch] is called: the URL string, the method
    and the time bound of the abort signal, in milliseconds. *)
Record FetchRequest : Type := {
  fetch_url : string;
  fetch_method : string;
  fetch_timeout : Z
}.

(** What the code takes from the platform without defining it:
    [URL_new input base] is [new URL(input, base)], [None] standing for
    the [TypeError] of an input that does not parse; [network] is what a
    dispatched request settles with (a response, or the value [fetch]
    rejects with: a [DOMException] named [TimeoutError] when the signal's
    time bound expires, a [TypeError] for a transport failure). *)
Record Platform : Type := {
  URL_new : string -> option string -> option URL;
  network : FetchRequest -> Result Response
}.

(** The R2 bucket: objects with their content type; [put_error], when
    set, is what [put] throws. *)
Record R2Bucket : Type := {
  objects : gmap string (ArrayBuffer * string);
  put_error : option Thrown
}.

(** What a handler can touch: the cache, the bucket, the requests sent
    out so far, the number of times the request body was read, and the
    tasks handed to [executionCtx.waitUntil] ([putCache] on a request and
    a response). *)
Record World : Type := {
  cache : Cache;
  bucket : R2Bucket;
  fetched : list FetchRequest;
  body_reads : nat;
  scheduled : list (Request * Response)
}.

(** Computations that read and change the world and may throw. *)
Definition M (A : Type) : Type := World -> Result A * World.

Definition ret {A} (a : A) : M A := fun w => (Return a, w).

Definition throw {A} (e : Thrown) : M A := fun w => (Throw e, w).

Definition bind {A B} (m : M A) (k : A -> M B) : M B :=
  fun w => match m w with
           | (Return a, w') => k a w'
           | (Throw e, w') => (Throw e, w')
           end.

Definition try_catch {A} (m : M A) (handler : Thrown -> M A) : M A :=
  fun w => match m w with
           | (Return a, w') => (Return a, w')
           | (Throw e, w') => handler e w'
           end.

Definition lift {A} (r : Result A) : M A := fun w => (r, w).

#[global] Instance M_ret : MRet M := @ret.
#[global] Instance M_bind : MBind M := fun A B k m => bind m k.

(** The world after [req] has been sent out. *)
Definition sent (req : FetchRequest) (w : World) : World :=
  {| cache := cache w; bucket := bucket w; fetched := fetched w ++ [req];
     body_reads := body_reads w; scheduled := scheduled w |}.

(** [fetch(url, { method, signal: AbortSignal.timeout(ms) })] *)
Definition fetch (P : Platform) (req : FetchRequest) : M Response :=
  fun w => (network P req, sent req w).

(** [c.req.arrayBuffer()] *)
Definition read_body (request : Request) : M ArrayBuffer :=
  fun w => (arrayBuffer request,
            {| cache := cache w; bucket := bucket w; fetched := fetched w;
               body_reads := S (body_reads w); scheduled := scheduled w |}).

(** [c.env.IMAGE_STORE.put(key, body, { httpMetadata: { contentType } })] *)
Definition IMAGE_STORE_put (key : string) (body : ArrayBuffer)
           (contentType : string) : M unit :=
  fun w => match put_error (bucket w) with
           | Some e => (Throw e, w)
           | None =>
               (Return tt,
                {| cache := cache w;
                   bucket := {| objects := <[key := (body, contentType)]>
                                             (objects (bucket w));
                                put_error := None |};
                   fetched := fetched w; body_reads := body_reads w;
                   scheduled := scheduled w |})
           end.

(** [c.executionCtx.waitUntil(putCache(request, response))] *)
Definition waitUntil_putCache (request : Request) (response : Response) : M unit :=
  fun w => (Return tt,
            {| cache := cache w; bucket := bucket w; fetched := fetched w;
               body_reads := body_reads w;
               scheduled := scheduled w ++ [(request, response)] |}).

(** The cache after the scheduled tasks have run. *)
Definition run_scheduled (tasks : list (Request * Response)) (c : Cache) : Cache :=
  fold_left (fun c task => putCache (fst task) (snd task) c) tasks c.

(** ** origin.ts *)

Definition ORIGIN_TIMEOUT_MS : Z := 30000.

Module Uri.

(** Characters [encodeURIComponent] leaves as they are. *)
Definition unreserved (c : ascii) : bool :=
  Url.is_alnum c
  || Ascii.eqb c "-" || Ascii.eqb c "_" || Ascii.eqb c "." || Ascii.eqb c "!"
  || Ascii.eqb c "~" || Ascii.eqb c "*" || Ascii.eqb c "'" || Ascii.eqb c "("
  || Ascii.eqb c ")".

Fixpoint encodeURIComponent (s : string) : string :=
  match s with
  | EmptyString => EmptyString
  | String c s' =>
      if unreserved c then String c (encodeURIComponent s')
      else Url.percent_char c (encodeURIComponent s')
  end.

(** [.replace(/%2F/g, "/")] *)
Fixpoint restore_slashes (s : string) : string :=
  match s with
  | EmptyString => EmptyString
  | String "%" (String "2" (String "F" s')) => String "/" (restore_slashes s')
  | String c s' => String c (restore_slashes s')
  end.

End Uri.

Definition invalid_url : Thrown := JSError "TypeError" "Invalid URL".

Definition fetchFromOrigin (P : Platform) (originUrl key : string)
           (params : list (string * string)) : M Response :=
  let encodedKey := Uri.restore_slashes (Uri.encodeURIComponent key) in
  match URL_new P ("/transform/" ++ encodedKey) (Some originUrl) with
  | None => throw invalid_url
  | Some transformUrl =>
      let transformUrl := Url.set_search (Form.serialize params) transformUrl in
      match URL_new P originUrl None with
      | None => throw invalid_url
      | Some base =>
          let expectedOrigin := Url.origin base in
          if negb (String.eqb (Url.origin transformUrl) expectedOrigin)
          then throw (HTTPException 400 "Invalid origin URL")
          else
            try_catch
              (response ← fetch P {| fetch_url := Url.href transformUrl;
                                     fetch_method := "GET";
                                     fetch_timeout := ORIGIN_TIMEOUT_MS |};
               ret response)
              (fun error =>
                 if instanceofError error
                 then if String.eqb (error_name error) "TimeoutError"
                      then throw (HTTPException 504 "Gateway Timeout")
                      else throw (HTTPException 502 "Bad Gateway")
                 else throw (HTTPException 502 "Bad Gateway"))
      end
  end.

(** ** cache.ts (application part): the two handlers *)

Definition MAX_FILE_SIZE : Z := 10 * 1024 * 1024.

(** [c.json(object, status)] *)
Definition json (fields : list (string * Json)) (st : Z) : Response :=
  {| status := st; statusText := "";
     headers := [("Content-Type", "application/json")];
     body := JsonBody fields |}.

Definition too_large_message : string :=
  ("File too large. Maximum size is "
   ++ Url.decimal (MAX_FILE_SIZE / 1024 / 1024) ++ "MB")%string.

(** [Number.parseInt(s, 10)]: leading white space, a sign, then the
    longest run of decimal digits; [None] is [NaN].  The value is the
    exact integer: a comparison with [MAX_FILE_SIZE], which a double holds
    exactly, has the same outcome on the double that the platform
    computes. *)
Fixpoint digits_value (acc : option Z) (s : string) : option Z :=
  match s with
  | EmptyString => acc
  | String c s' =>
      if JS.is_digit c
      then digits_value
             (Some (10 * match acc with Some n => n | None => 0 end
                    + (JS.code c - 48))) s'
      else acc
  end.

Definition parseInt10 (s : string) : option Z :=
  let s := JS.skip_spaces s in
  let '(sign, s) :=
    match s with
    | String "-" s' => (-1, s')
    | String "+" s' => (1, s')
    | _ => (1, s)
    end in
  match digits_value None s with
  | Some n => Some (sign * n)
  | None => None
  end.

(** [contentLength && Number.parseInt(contentLength, 10) > MAX_FILE_SIZE] *)
Definition declared_too_large (contentLength : option string) : bool :=
  match contentLength with
  | None => false
  | Some s =>
      if JS.falsy s then false
      else match parseInt10 s with
           | Some n => n >? MAX_FILE_SIZE
           | None => false
           end
  end.

(** The bindings of the worker. *)
Record Bindings : Type := { ORIGIN_URL : string }.

(** [app.get("/images/*", ...)].  The [Response] constructor accepts the
    statuses from 200 to 599 and throws a [RangeError] on any other; the
    responses that are rebuilt here are taken to have a status it
    accepts, and that throw is left out. *)
Definition get_images (P : Platform) (env : Bindings) (request : Request)
  : M Response :=
  match extractKeyFromPath (req_path request) with
  | None => ret (json [("error", JString "Invalid key format")] 400)
  | Some key =>
      if negb (validateKey key)
      then ret (json [("error", JString "Invalid key format")] 400)
      else
        let params := searchParams (url request) in
        fun w =>
          match matchCache request (cache w) with
          | Some cached =>
              ret {| status := status cached; statusText := statusText cached;
                     headers := Http.set (headers cached) "X-Cache" "HIT";
                     body := body cached |} w
          | None =>
              (originResponse ← fetchFromOrigin P (ORIGIN_URL env) key params;
               let cacheableResponse := clone originResponse in
               let response :=
                 {| status := status originResponse;
                    statusText := statusText originResponse;
                    headers := Http.set (headers originResponse) "X-Cache" "MISS";
                    body := body originResponse |} in
               (if ok originResponse
                then waitUntil_putCache request cacheableResponse
                else ret tt);;
               ret response) w
          end
  end.

(** [app.put("/images/*", ...)] *)
Definition put_images (request : Request) : M Response :=
  match extractKeyFromPath (req_path request) with
  | None => ret (json [("error", JString "Invalid key format")] 400)
  | Some key =>
      if negb (validateKey key)
      then ret (json [("error", JString "Invalid key format")] 400)
      else
        let contentLength := Http.get (req_headers request) "Content-Length" in
        if declared_too_large contentLength
        then ret (json [("error", JString too_large_message)] 413)
        else
          try_catch
            (body ← read_body request;
             if byteLength body >? MAX_FILE_SIZE
             then ret (json [("error", JString too_large_message)] 413)
             else
               contentType ← lift (detectMimeType body);
               IMAGE_STORE_put key body contentType;;
               ret (json [("success", JBool true); ("key", JString key)] 201))
            (fun error =>
               if instanceofError error
                  && negb (JS.falsy (error_message error))
                  && JS.includes "Unsupported file type" (error_message error)
               then ret (json [("error", JString "Unsupported media type")] 415)
               else ret (json [("error", JString "Internal server error")] 500))
  end.

(** The request that [fetchFromOrigin] sends for [target]. *)
Definition origin_request (target : URL) : FetchRequest :=
  {| fetch_url := Url.href target; fetch_method := "GET";
     fetch_timeout := ORIGIN_TIMEOUT_MS |}.

(** The path-and-key reference that [fetchFromOrigin] resolves. *)
Definition transform_reference (key : string) : string :=
  ("/transform/" ++ Uri.restore_slashes (Uri.encodeURIComponent key))%string.

(** What the [catch] block of [fetchFromOrigin] turns a failure into. *)
Definition translated (error : Thrown) : Thrown :=
  if instanceofError error && String.eqb (error_name error) "TimeoutError"
  then HTTPException 504 "Gateway Timeout"
  else HTTPException 502 "Bad Gateway".

(** The failure is the expiry of the time bound. *)
Definition is_timeout (e : Thrown) : Prop :=
  exists message, e = JSError "TimeoutError" message.

(** ** The origin gateway on any key

    [fetchFromOrigin] is exported and takes any string of the language as
    its key: a sequence of UTF-16 code units, each a number from 0 to
    65535, in which a surrogate may stand without its partner.
    [encodeURIComponent] throws a [URIError] on such a key.  The
    definitions below are [encodeURIComponent] and [fetchFromOrigin] on
    these strings; on a key of code units below 256 they are the
    definitions above. *)
Definition JSString : Type := list Z.

(** The code units of a string of code units below 256. *)
Definition units (s : string) : JSString :=
  List.map JS.code (list_ascii_of_string s).

Definition uri_error : Thrown := JSError "URIError" "URI malformed".

Module Utf16.

Definition is_lead (u : Z) : bool := (0xD800 <=? u) && (u <=? 0xDBFF).
Definition is_trail (u : Z) : bool := (0xDC00 <=? u) && (u <=? 0xDFFF).

(** The code point of a surrogate pair. *)
Definition code_point (lead trail : Z) : Z :=
  0x10000 + (lead - 0xD800) * 1024 + (trail - 0xDC00).

Definition unreserved (u : Z) : bool :=
  (u <? 128) && Uri.unreserved (Utf8.byte u).

(** Each byte as [%] and two hexadecimal digits. *)
Definition percent_bytes (bytes : list ascii) (rest : string) : string :=
  fold_right Url.percent_byte rest bytes.

Definition prepend (f : string -> string) (r : Result string) : Result string :=
  match r with
  | Return s => Return (f s)
  | Throw e => Throw e
  end.

Fixpoint encodeURIComponent (s : JSString) : Result string :=
  match s with
  | [] => Return EmptyString
  | u :: s' =>
      if unreserved u
      then prepend (String (Utf8.byte u)) (encodeURIComponent s')
      else if is_trail u then Throw uri_error
      else if is_lead u then
        match s' with
        | v :: s'' =>
            if is_trail v
            then prepend (percent_bytes (Utf8.encode_point (code_point u v)))
                         (encodeURIComponent s'')
            else Throw uri_error
        | [] => Throw uri_error
        end
      else prepend (percent_bytes (Utf8.encode_point u)) (encodeURIComponent s')
  end.

Definition fetchFromOrigin (P : Platform) (originUrl : string) (key : JSString)
           (params : list (string * string)) : M Response :=
  encoded ← lift (encodeURIComponent key);
  let encodedKey := Uri.restore_slashes encoded in
  match URL_new P ("/transform/" ++ encodedKey) (Some originUrl) with
  | None => throw invalid_url
  | Some transformUrl =>
      let transformUrl := Url.set_search (Form.serialize params) transformUrl in
      match URL_new P originUrl None with
      | None => throw invalid_url
      | Some base =>
          let expectedOrigin := Url.origin base in
          if negb (String.eqb (Url.origin transformUrl) expectedOrigin)
          then throw (HTTPException 400 "Invalid origin URL")
          else
            try_catch
              (response ← fetch P {| fetch_url := Url.href transformUrl;
                                     fetch_method := "GET";
                                     fetch_timeout := ORIGIN_TIMEOUT_MS |};
               ret response)
              (fun error =>
                 if instanceofError error
                 then if String.eqb (error_name error) "TimeoutError"
                      then throw (HTTPException 504 "Gateway Timeout")
                      else throw (HTTPException 502 "Bad Gateway")
                 else throw (HTTPException 502 "Bad Gateway"))
      end
  end.

(** Reading the specification's words. *)

(** No surrogate of the string stands alone: every leading surrogate is
    followed by a trailing one, and every trailing one follows a leading
    one. *)
Inductive well_formed : JSString -> Prop :=
| wf_nil : well_formed []
| wf_unit (u : Z) (s : JSString) :
    is_lead u = false -> is_trail u = false -> well_formed s ->
    well_formed (u :: s)
| wf_pair (u v : Z) (s : JSString) :
    is_lead u = true -> is_trail v = true -> well_formed s ->
    well_formed (u :: v :: s).

(** The path-and-key reference that [fetchFromOrigin] resolves, when the
    key can be encoded. *)
Definition transform_reference (key : JSString) : option string :=
  match encodeURIComponent key with
  | Return encoded => Some ("/transform/" ++ Uri.restore_slashes encoded)%string
  | Throw _ => None
  end.

(** The request is the one built for [key] and [params] and it goes to
    the origin of the configured base URL. *)
Definition to_configured_origin (P : Platform) (originUrl : string)
           (key : JSString) (params : list (string * string))
           (req : FetchRequest) : Prop :=
  exists (reference : string) (base resolved : URL),
    transform_reference key = Some reference
    /\ URL_new P originUrl None = Some base
    /\ URL_new P reference (Some originUrl) = Some resolved
    /\ req = origin_request (Url.set_search (Form.serialize params) resolved)
    /\ Url.origin (Url.set_search (Form.serialize params) resolved)
       = Url.origin base.

End Utf16.

(** ** A platform and a world to run the code in *)
Module Example.

Definition origin_url : URL :=
  {| scheme := "https"; username := ""; password := "";
     host := Some "origin.example"; port := None; path := "/";
     query := None; fragment := None |}.

(** A URL constructor that knows one absolute URL and resolves a path
    against it. *)
Definition URL_new (input : string) (base : option string) : option URL :=
  match base with
  | None =>
      if String.eqb input "https://origin.example" then Some origin_url else None
  | Some b =>
      if String.eqb b "https://origin.example" && JS.startsWith "/" input
      then Some {| scheme := "https"; username := ""; password := "";
                   host := Some "origin.example"; port := None; path := input;
                   query := None; fragment := None |}
      else None
  end.

Definition png : ArrayBuffer :=
  [0x89; 0x50; 0x4e; 0x47; 0x0d; 0x0a; 0x1a; 0x0a; 0; 0; 0; 0x0d; 0x49; 0x48; 0x44; 0x52].

Definition found : Response :=
  {| status := 200; statusText := "OK";
     headers := [("Content-Type", "image/png");
                 ("Cache-Control", "public, max-age=3600")];
     body := Bytes png |}.

Definition not_found : Response :=
  {| status := 404; statusText := "Not Found";
     headers := [("Cache-Control", "public, max-age=3600")];
     body := Bytes [] |}.

(** An origin that has one image, answers 404 for a second key, never
    answers in time for a third and is unreachable otherwise. *)
Definition network (req : FetchRequest) : Result Response :=
  if String.eqb (fetch_url req) "https://origin.example/transform/a/b.png?w=100"
  then Return found
  else if String.eqb (fetch_url req) "https://origin.example/transform/missing.png"
  then Return not_found
  else if String.eqb (fetch_url req) "https://origin.example/transform/slow.png"
  then Throw (JSError "TimeoutError" "The operation was aborted due to timeout")
  else Throw (JSError "TypeError" "fetch failed").

Definition platform : Platform :=
  Build_Platform URL_new network.

(** A URL constructor that lets the reference decide the host: what a
    parser confused by a crafted key would amount to. *)
Definition confused_URL_new (input : string) (base : option string) : option URL :=
  match base with
  | None => URL_new input None
  | Some _ =>
      Some {| scheme := "https"; username := ""; password := "";
              host := Some "attacker.example"; port := None; path := input;
              query := None; fragment := None |}
  end.

Definition confused_platform : Platform :=
  Build_Platform confused_URL_new network.

(** Nothing stored, nothing sent, and a cache store that keeps what it
    is given. *)
Definition world : World :=
  {| cache := {| entries := ∅; puts := []; keeps := fun _ _ => true |};
     bucket := {| objects := ∅; put_error := None |};
     fetched := []; body_reads := 0; scheduled := [] |}.

Definition env : Bindings := {| ORIGIN_URL := "https://origin.example" |}.

Definition request (p : string) (q : option string) (h : Headers)
           (b : Result ArrayBuffer) : Request :=
  {| url := {| scheme := "https"; username := ""; password := "";
               host := Some "cdn.example"; port := None; path := p;
               query := q; fragment := None |};
     req_path := p; req_headers := h; arrayBuffer := b |}.

End Example.

(** ** Definitions for the further properties *)

(** A character that is neither [&] nor [=]. *)
Definition plain (c : ascii) : bool :=
  negb (Ascii.eqb c "&") && negb (Ascii.eqb c "=").

(** A character that is not [&]. *)
Definition no_amp (c : ascii) : bool := negb (Ascii.eqb c "&").

(** The answer of both handlers to a path without a valid key. *)
Definition invalid_key_response : Response :=
  json [("error", JString "Invalid key format")] 400.

(** The world after the request body has been read. *)
Definition read_once (w : World) : World :=
  {| cache := cache w; bucket := bucket w; fetched := fetched w;
     body_reads := S (body_reads w); scheduled := scheduled w |}.

(** The world after an object has been put in the bucket. *)
Definition stored (key : string) (body : ArrayBuffer) (contentType : string)
           (w : World) : World :=
  {| cache := cache w;
     bucket := {| objects := <[key := (body, contentType)]> (objects (bucket w));
                  put_error := None |};
     fetched := fetched w; body_reads := body_reads w;
     scheduled := scheduled w |}.

(** What the [catch] block of the upload handler answers to [error]. *)
Definition caught (error : Thrown) : Response :=
  if instanceofError error
     && negb (JS.falsy (error_message error))
     && JS.includes "Unsupported file type" (error_message error)
  then json [("error", JString "Unsupported media type")] 415
  else json [("error", JString "Internal server error")] 500.

Definition too_large_response : Response :=
  json [("error", JString too_large_message)] 413.

Definition created_response (key : string) : Response :=
  json [("success", JBool true); ("key", JString key)] 201.

(** The MIME types the sniffer knows. *)
Definition image_types : list string :=
  ["image/jpeg"; "image/png"; "image/gif"; "image/webp"; "image/avif"].

(** The characters an encoded key is made of: those [encodeURIComponent]
    leaves alone, the percent sign of the escapes, and the slash. *)
Definition reference_char (c : ascii) : bool :=
  Uri.unreserved c || Ascii.eqb c "%" || Ascii.eqb c "/".

(** The characters a serialised parameter list is made of. *)
Definition form_char (c : ascii) : bool :=
  Form.unreserved c || Ascii.eqb c "+" || Ascii.eqb c "%" || Ascii.eqb c "="
  || Ascii.eqb c "&".

(** The query that [fetchFromOrigin] gives the outbound URL. *)
Definition forwarded_query (params : list (string * string)) : option string :=
  match params with
  | [] => None
  | _ :: _ => Some (Form.serialize params)
  end.

(** * Theorems *)

(** ** String built-ins against their declarative reading *)

Lemma startsWith_spec (p s : string) :
  JS.startsWith p s = true <-> begins_with p s.
Proof.
  unfold begins_with. revert s. induction p as [|a p IH]; intros s; simpl.
  - split; [intros _; exists s; reflexivity | reflexivity].
  - destruct s as [|b s].
    + split; [discriminate | intros [r Hr]; discriminate].
    + rewrite andb_true_iff, IH. split.
      * intros [Hab [r Hr]]. apply Ascii.eqb_eq in Hab. subst. exists r. reflexivity.
      * intros [r Hr]. injection Hr as -> ->. split; [apply Ascii.eqb_refl | exists r; reflexivity].
Qed.

Lemma includes_spec (sub s : string) :
  JS.includes sub s = true <-> contains sub s.
Proof.
  unfold contains. induction s as [|c s IH].
  - simpl. rewrite orb_false_r, startsWith_spec. split.
    + intros [r Hr]. exists "", r. exact Hr.
    + intros [pre [post H]]. destruct pre; simpl in H.
      * exists post. exact H.
      * discriminate.
  - cbn [JS.includes]. rewrite orb_true_iff, startsWith_spec, IH. split.
    + intros [[r Hr] | [pre [post H]]].
      * exists "", r. exact Hr.
      * exists (String c pre), post. simpl. rewrite H. reflexivity.
    + intros [pre [post H]]. destruct pre as [|d pre]; simpl in H.
      * left. exists post. exact H.
      * right. injection H as -> ->. exists pre, post. reflexivity.
Qed.

Lemma safeChar_existsb (c : ascii) :
  safeChar c = existsb (Ascii.eqb c) allowed_chars.
Proof.
  destruct c as [[] [] [] [] [] [] [] []]; vm_compute; reflexivity.
Qed.

Lemma safeChar_spec (c : ascii) : safeChar c = true <-> allowed c.
Proof.
  rewrite safeChar_existsb, List.existsb_exists. unfold allowed. split.
  - intros [x [Hin Heq]]. apply Ascii.eqb_eq in Heq. subst. exact Hin.
  - intros Hin. exists c. split; [exact Hin | apply Ascii.eqb_refl].
Qed.

Lemma all_chars_spec (p : ascii -> bool) (s : string) :
  JS.all_chars p s = true <-> forall c, In c (chars s) -> p c = true.
Proof.
  unfold chars. induction s as [|a s IH]; simpl.
  - split; [intros _ c [] | reflexivity].
  - rewrite andb_true_iff, IH. split.
    + intros [Ha Hs] c [<- | Hc]; auto.
    + intros H. split; [apply H; left; reflexivity | intros c Hc; apply H; right; exact Hc].
Qed.

Lemma falsy_spec (s : string) : JS.falsy s = true <-> s = "".
Proof. destruct s; simpl; split; congruence. Qed.

(** What [validateKey] accepts, in one equivalence. *)
Lemma validateKey_true_iff (key : string) :
  validateKey key = true <->
  key <> "" /\ ~ contains ".." key /\ ~ begins_with "/" key
  /\ ~ contains "//" key /\ (forall c, In c (chars key) -> allowed c).
Proof.
  unfold validateKey, safePattern_test.
  rewrite <- !includes_spec, <- startsWith_spec, <- falsy_spec.
  destruct (JS.falsy key) eqn:Hf, (JS.includes ".." key) eqn:Hd,
           (JS.startsWith "/" key) eqn:Hs, (JS.includes "//" key) eqn:Hss;
    simpl; try (split; [discriminate | intros (H1 & H2 & H3 & H4 & _); congruence]).
  rewrite all_chars_spec. split.
  - intros H. repeat split; try discriminate.
    intros c Hc. apply safeChar_spec, H, Hc.
  - intros (_ & _ & _ & _ & H) c Hc. apply safeChar_spec, H, Hc.
Qed.

(** C4: a key that is empty, contains "..", starts with "/", contains "//"
    or holds a character outside [a-zA-Z0-9\-_/.] is rejected by
    [validateKey]; every non-empty key over that alphabet with none of the
    forbidden patterns is accepted. *)
Theorem validateKey_rejects_exactly_the_bad_keys (key : string) :
  (validateKey key = false <->
     key = "" \/ contains ".." key \/ begins_with "/" key
     \/ contains "//" key \/ (exists c, In c (chars key) /\ ~ allowed c))
  /\ (validateKey key = true <->
        key <> "" /\ (forall c, In c (chars key) -> allowed c)
        /\ ~ contains ".." key /\ ~ begins_with "/" key /\ ~ contains "//" key).
Proof.
  split.
  - split.
    + intros Hv.
      destruct (JS.falsy key) eqn:Hf; [left; apply falsy_spec, Hf|].
      destruct (JS.includes ".." key) eqn:Hd; [right; left; apply includes_spec, Hd|].
      destruct (JS.startsWith "/" key) eqn:Hs; [do 2 right; left; apply startsWith_spec, Hs|].
      destruct (JS.includes "//" key) eqn:Hss; [do 3 right; left; apply includes_spec, Hss|].
      do 4 right.
      unfold validateKey, safePattern_test in Hv. rewrite Hf, Hd, Hs, Hss in Hv.
      simpl in Hv. clear Hf Hd Hs Hss. unfold chars.
      induction key as [|a k IH]; simpl in Hv; [discriminate|].
      destruct (safeChar a) eqn:Ha.
      * destruct (IH Hv) as [c [Hc Hn]]. exists c. split; [right; exact Hc | exact Hn].
      * exists a. split; [left; reflexivity|].
        intros Hal. apply safeChar_spec in Hal. congruence.
    + intros H. destruct (validateKey key) eqn:Hv; [|reflexivity].
      apply validateKey_true_iff in Hv. destruct Hv as (H1 & H2 & H3 & H4 & H5).
      destruct H as [H | [H | [H | [H | [c [Hc Hn]]]]]]; try contradiction.
      exfalso. apply Hn, H5, Hc.
  - rewrite validateKey_true_iff. tauto.
Qed.

(** ** The content sniffer against the signature table *)

Lemma skipn_nth_error {A} (l : list A) (n : nat) :
  skipn n l = match nth_error l n with
              | Some x => x :: skipn (S n) l
              | None => []
              end.
Proof.
  revert l. induction n as [|n IH]; intros [|a l]; try reflexivity.
  simpl nth_error. rewrite <- IH. reflexivity.
Qed.

Lemma segment_atb_spec (bytes : list Z) (off : nat) (pat : list Z) :
  segment_atb bytes off pat = true <-> segment_at bytes (off, pat).
Proof.
  unfold segment_at. simpl fst; simpl snd.
  revert off. induction pat as [|v pat IH]; intros off.
  - simpl. split; reflexivity.
  - cbn [segment_atb List.length]. rewrite andb_true_iff.
    rewrite (skipn_nth_error bytes off). unfold byte_is.
    destruct (nth_error bytes off) as [b|]; cbn [firstn].
    + rewrite Z.eqb_eq. split.
      * intros [-> H]. apply IH in H. rewrite H. reflexivity.
      * intros H. injection H as -> H. split; [reflexivity | apply IH, H].
    + split; [intros [H _]; discriminate | discriminate].
Qed.

Lemma sig_matchesb_spec (bytes : list Z) (s : Signature) :
  sig_matchesb bytes s = true <-> sig_matches bytes s.
Proof.
  unfold sig_matchesb, sig_matches.
  rewrite List.existsb_exists, List.Exists_exists.
  split; intros [alt [Hin H]]; exists alt; (split; [exact Hin|]).
  - apply List.Forall_forall. intros [off pat] Hseg.
    rewrite List.forallb_forall in H. apply segment_atb_spec, (H _ Hseg).
  - apply List.forallb_forall. intros [off pat] Hseg.
    rewrite List.Forall_forall in H. apply segment_atb_spec, (H _ Hseg).
Qed.

(** The chain of [if]s of [detectMimeType] is the table, row by row. *)
Lemma detectMimeType_by_table (buffer : ArrayBuffer) :
  detectMimeType buffer = sniff_by_table (firstn 16 buffer).
Proof.
  unfold detectMimeType, sniff_by_table, signature_table, sig_matchesb.
  generalize (firstn 16 buffer) as bytes. intros bytes.
  cbn [find existsb forallb sig_alts sig_mime segment_atb fst snd].
  repeat match goal with
         | |- context [byte_is bytes ?i ?v] =>
             destruct (byte_is bytes i v); cbn [andb orb]
         end; reflexivity.
Qed.

Lemma find_first {A} (p : A -> bool) (l : list A) :
  match find p l with
  | Some x => exists pre post, l = pre ++ x :: post /\ p x = true
                               /\ forall y, In y pre -> p y = false
  | None => forall y, In y l -> p y = false
  end.
Proof.
  induction l as [|a l IH]; simpl.
  - intros y [].
  - destruct (p a) eqn:Ha.
    + exists [], l. repeat split; [exact Ha | intros y []].
    + destruct (find p l) as [x|].
      * destruct IH as (pre & post & -> & Hx & Hpre).
        exists (a :: pre), post. repeat split; [exact Hx|].
        intros y [<- | Hy]; [exact Ha | apply Hpre, Hy].
      * intros y [<- | Hy]; [exact Ha | apply IH, Hy].
Qed.

(** What the table lookup answers: a failure exactly when no row matches,
    and otherwise the type of the first row that matches. *)
Lemma sniff_by_table_spec (bytes : list Z) :
  (sniff_by_table bytes = Throw unsupported <->
     forall s, In s signature_table -> ~ sig_matches bytes s)
  /\ (forall s, In s signature_table -> sig_matches bytes s ->
        exists s', In s' signature_table /\ sig_matches bytes s'
                   /\ sniff_by_table bytes = Return (sig_mime s'))
  /\ (forall m, sniff_by_table bytes = Return m ->
        exists pre s post,
          signature_table = pre ++ s :: post /\ sig_mime s = m
          /\ sig_matches bytes s
          /\ forall s', In s' pre -> ~ sig_matches bytes s').
Proof.
  unfold sniff_by_table.
  pose proof (find_first (sig_matchesb bytes) signature_table) as Hf.
  destruct (find (sig_matchesb bytes) signature_table) as [s0|].
  - destruct Hf as (pre & post & Htab & Hs0 & Hpre).
    assert (Hin0 : In s0 signature_table)
      by (rewrite Htab; apply in_or_app; right; left; reflexivity).
    apply sig_matchesb_spec in Hs0.
    split; [|split].
    + split; [discriminate|]. intros H. exfalso. exact (H s0 Hin0 Hs0).
    + intros s _ _. exists s0. auto.
    + intros m Hm. injection Hm as <-. exists pre, s0, post.
      repeat split; auto.
      intros s' Hs' Hmatch. apply sig_matchesb_spec in Hmatch.
      rewrite (Hpre s' Hs') in Hmatch. discriminate.
  - split; [|split].
    + split; [|reflexivity]. intros _ s Hs Hmatch.
      apply sig_matchesb_spec in Hmatch. rewrite (Hf s Hs) in Hmatch. discriminate.
    + intros s Hs Hmatch. apply sig_matchesb_spec in Hmatch.
      rewrite (Hf s Hs) in Hmatch. discriminate.
    + intros m Hm. discriminate.
Qed.

(** The first element that passes is the one [find] returns. *)
Lemma find_at_first {A} (p : A -> bool) (pre : list A) (x : A) (post : list A) :
  p x = true -> (forall y, In y pre -> p y = false) ->
  find p (pre ++ x :: post) = Some x.
Proof.
  intros Hx. induction pre as [|a pre IH]; intros Hpre; simpl.
  - rewrite Hx. reflexivity.
  - rewrite (Hpre a (or_introl eq_refl)). apply IH.
    intros y Hy. apply Hpre. right. exact Hy.
Qed.

(** C6, as stated, fails: in the buffer below the WebP signature matches
    (bytes 8 to 11 are 57 45 42 50), and so does the JPEG signature (bytes
    0 to 2 are FF D8 FF); the type returned is the one of the JPEG row,
    not the one the table assigns to the WebP signature. *)
Lemma detectMimeType_overlapping_signatures :
  let buffer := [0xff; 0xd8; 0xff; 0xe0; 0; 0; 0; 0; 0x57; 0x45; 0x42; 0x50] in
  let webp := {| sig_mime := "image/webp";
                 sig_alts := [[(8%nat, [0x57; 0x45; 0x42; 0x50])]] |} in
  In webp signature_table
  /\ sig_matches (firstn 16 buffer) webp
  /\ detectMimeType buffer = Return "image/jpeg"
  /\ detectMimeType buffer <> Return (sig_mime webp).
Proof.
  cbv zeta. split; [|split; [|split]].
  - unfold signature_table. simpl. tauto.
  - apply sig_matchesb_spec. reflexivity.
  - reflexivity.
  - discriminate.
Qed.

(** C6 (amended): [detectMimeType] throws "Unsupported file type" exactly
    when the first 16 bytes match none of the five signatures of the
    table; when some signature matches it returns the MIME type that the
    table assigns to the first signature that matches, in the order of
    the table (JPEG, PNG, GIF, WebP, AVIF), and it returns nothing else. *)
Theorem detectMimeType_table (buffer : ArrayBuffer) :
  (detectMimeType buffer = Throw unsupported <->
     forall s, In s signature_table -> ~ sig_matches (firstn 16 buffer) s)
  /\ (forall pre s post,
        signature_table = pre ++ s :: post ->
        sig_matches (firstn 16 buffer) s ->
        (forall s', In s' pre -> ~ sig_matches (firstn 16 buffer) s') ->
        detectMimeType buffer = Return (sig_mime s))
  /\ (forall m, detectMimeType buffer = Return m ->
        exists pre s post,
          signature_table = pre ++ s :: post /\ sig_mime s = m
          /\ sig_matches (firstn 16 buffer) s
          /\ forall s', In s' pre -> ~ sig_matches (firstn 16 buffer) s').
Proof.
  rewrite detectMimeType_by_table.
  destruct (sniff_by_table_spec (firstn 16 buffer)) as (Hthrow & _ & Hret).
  split; [exact Hthrow | split].
  - intros pre s post Htab Hmatch Hpre. unfold sniff_by_table.
    rewrite Htab, (find_at_first (sig_matchesb (firstn 16 buffer)) pre s post);
      [reflexivity | apply sig_matchesb_spec, Hmatch|].
    intros s' Hs'. specialize (Hpre s' Hs').
    destruct (sig_matchesb (firstn 16 buffer) s') eqn:E; [|reflexivity].
    exfalso. apply Hpre, sig_matchesb_spec, E.
  - intros m Hm. exact (Hret m Hm).
Qed.

(** The buffer with the JPEG and the WebP signatures at once: the JPEG
    row is the first of the table, so its type is the one returned. *)
Lemma detectMimeType_table_witness :
  detectMimeType [0xff; 0xd8; 0xff; 0xe0; 0; 0; 0; 0; 0x57; 0x45; 0x42; 0x50]
  = Return "image/jpeg".
Proof.
  refine (proj1 (proj2 (detectMimeType_table
            [0xff; 0xd8; 0xff; 0xe0; 0; 0; 0; 0; 0x57; 0x45; 0x42; 0x50]))
            [] {| sig_mime := "image/jpeg";
                  sig_alts := [[(0%nat, [0xff; 0xd8; 0xff])]] |} _ eq_refl _ _).
  - apply sig_matchesb_spec. reflexivity.
  - intros s' [].
Defined.

Lemma segment_at_within (bytes : list Z) (off : nat) (pat : list Z) :
  pat <> [] -> segment_at bytes (off, pat) ->
  (off + List.length pat <= List.length bytes)%nat.
Proof.
  unfold segment_at. simpl fst; simpl snd. intros Hne H.
  apply (f_equal (@List.length Z)) in H.
  rewrite List.length_firstn, List.length_skipn in H.
  destruct pat as [|v pat]; [congruence|]. simpl List.length in *. lia.
Qed.

(** Every alternative of the table that matches lies within the buffer. *)
Lemma table_match_within (bytes : list Z) (s : Signature) (alt : list (nat * list Z)) :
  In s signature_table -> In alt (sig_alts s) ->
  Forall (segment_at bytes) alt ->
  (3 <= alt_extent alt <= List.length bytes)%nat.
Proof.
  intros Hs Halt Hall. rewrite List.Forall_forall in Hall.
  assert (Hseg : forall seg, In seg alt -> snd seg <> [] ->
                   (fst seg + List.length (snd seg) <= List.length bytes)%nat).
  { intros [off pat] Hin Hne. apply segment_at_within; [exact Hne | apply Hall, Hin]. }
  clear Hall. unfold signature_table in Hs. simpl in Hs.
  repeat (destruct Hs as [<- | Hs]; [simpl in Halt|]); try contradiction;
    repeat (destruct Halt as [<- | Halt]; [|]); try contradiction;
    unfold alt_extent; cbn [fold_right fst snd List.length].
  all: try (pose proof (Hseg _ (or_introl eq_refl) ltac:(discriminate)) as Ha).
  all: try (pose proof (Hseg _ (or_intror (or_introl eq_refl)) ltac:(discriminate)) as Hb).
  all: simpl in *; lia.
Qed.

(** C7, as stated, fails: a three-byte buffer that is a JPEG signature is
    shorter than 16 bytes and is still recognised. *)
Lemma detectMimeType_short_jpeg_recognised :
  let buffer := [0xff; 0xd8; 0xff] in
  (List.length buffer < 16)%nat
  /\ detectMimeType buffer = Return "image/jpeg"
  /\ detectMimeType buffer <> Throw unsupported.
Proof. cbv zeta. split; [simpl; lia | split; [reflexivity | discriminate]]. Qed.

(** C7 (amended): on a buffer shorter than 16 bytes the sniffer matches the
    signatures against the bytes that are present.  It returns a type only
    when some alternative of that type's row lies wholly inside the buffer
    (3 bytes at least) and matches there; it throws exactly when no row
    matches the bytes present; so every buffer shorter than 3 bytes is
    rejected whatever it holds. *)
Theorem detectMimeType_short_buffer (buffer : ArrayBuffer) :
  (List.length buffer < 16)%nat ->
  (forall m, detectMimeType buffer = Return m ->
     exists s alt, In s signature_table /\ sig_mime s = m
                   /\ In alt (sig_alts s) /\ Forall (segment_at buffer) alt
                   /\ (3 <= alt_extent alt <= List.length buffer)%nat)
  /\ (detectMimeType buffer = Throw unsupported <->
        forall s, In s signature_table -> ~ sig_matches buffer s)
  /\ ((List.length buffer < 3)%nat -> detectMimeType buffer = Throw unsupported).
Proof.
  intros Hlen.
  assert (Hfirst : firstn 16 buffer = buffer) by (apply List.firstn_all2; lia).
  pose proof (sniff_by_table_spec (firstn 16 buffer)) as (Hthrow & _ & Hret).
  rewrite <- detectMimeType_by_table in Hthrow, Hret.
  rewrite Hfirst in Hthrow, Hret.
  assert (Hwithin : forall m, detectMimeType buffer = Return m ->
     exists s alt, In s signature_table /\ sig_mime s = m
                   /\ In alt (sig_alts s) /\ Forall (segment_at buffer) alt
                   /\ (3 <= alt_extent alt <= List.length buffer)%nat).
  { intros m Hm. destruct (Hret m Hm) as (pre & s & post & Htab & Hmime & Hmatch & _).
    assert (Hin : In s signature_table)
      by (rewrite Htab; apply in_or_app; right; left; reflexivity).
    unfold sig_matches in Hmatch. apply List.Exists_exists in Hmatch.
    destruct Hmatch as (alt & Halt & Hall).
    exists s, alt. repeat split; auto;
      apply (table_match_within buffer s alt Hin Halt Hall). }
  split; [exact Hwithin | split; [exact Hthrow|]].
  intros Hshort. destruct (detectMimeType buffer) as [m|e] eqn:Hd.
  - destruct (Hwithin m eq_refl) as (s & alt & _ & _ & _ & _ & Hext). lia.
  - unfold detectMimeType in Hd.
    repeat match type of Hd with
           | (if ?c then _ else _) = _ => destruct c; [discriminate|]
           end.
    congruence.
Qed.

Lemma detectMimeType_short_buffer_witness :
  let buffer := [0x47; 0x49; 0x46; 0x38] in
  (List.length buffer < 16)%nat
  /\ detectMimeType buffer = Return "image/gif"
  /\ exists s alt, In s signature_table /\ sig_mime s = "image/gif"
                   /\ In alt (sig_alts s) /\ Forall (segment_at buffer) alt
                   /\ (3 <= alt_extent alt <= List.length buffer)%nat.
Proof.
  cbv zeta.
  assert (Hlen : (List.length [0x47; 0x49; 0x46; 0x38] < 16)%nat) by (simpl; lia).
  split; [exact Hlen | split; [reflexivity|]].
  exact (proj1 (detectMimeType_short_buffer [0x47; 0x49; 0x46; 0x38] Hlen)
               "image/gif" eq_refl).
Defined.

(** ** The order of names and the stable sort *)

Ltac ltb_cases :=
  repeat match goal with
         | |- context [?x <? ?y] => destruct (Z.ltb_spec x y)
         | H : context [?x <? ?y] |- _ => destruct (Z.ltb_spec x y)
         end.

Lemma units_ltb_irrefl (a : list Z) : units_ltb a a = false.
Proof.
  induction a as [|x a IH]; [reflexivity|].
  simpl. rewrite Z.ltb_irrefl. exact IH.
Qed.

Lemma units_ltb_asym (a b : list Z) :
  units_ltb a b = true -> units_ltb b a = false.
Proof.
  revert b. induction a as [|x a IH]; intros [|y b]; simpl;
    try discriminate; try reflexivity.
  ltb_cases; try discriminate; try reflexivity; try lia. apply IH.
Qed.

Lemma units_ltb_both_false (a b : list Z) :
  units_ltb a b = false -> units_ltb b a = false -> a = b.
Proof.
  revert b. induction a as [|x a IH]; intros [|y b]; simpl;
    try discriminate; try reflexivity.
  ltb_cases; try discriminate; try lia.
  intros H1 H2. assert (x = y) by lia. subst y. f_equal. apply IH; assumption.
Qed.

Lemma units_le_trans (a b c : list Z) :
  units_ltb b a = false -> units_ltb c b = false -> units_ltb c a = false.
Proof.
  revert b c. induction a as [|x a IH]; intros [|y b] [|z c]; simpl;
    try discriminate; try reflexivity.
  ltb_cases; try discriminate; try reflexivity; try lia.
  apply IH.
Qed.

(** The code units of code points that are not surrogates tell the code
    points. *)
Lemma units_of_points_inj (l1 l2 : list Z) :
  forallb Utf8.scalar l1 = true -> forallb Utf8.scalar l2 = true ->
  flat_map Utf8.units_of_point l1 = flat_map Utf8.units_of_point l2 ->
  l1 = l2.
Proof.
  revert l2. induction l1 as [|p l1 IH]; intros [|q l2]; simpl.
  - reflexivity.
  - intros _ _ H. unfold Utf8.units_of_point in H.
    destruct (q <? 65536); discriminate H.
  - intros _ _ H. unfold Utf8.units_of_point in H.
    destruct (p <? 65536); discriminate H.
  - rewrite !andb_true_iff. intros [Hp H1] [Hq H2] H.
    unfold Utf8.scalar in Hp, Hq.
    rewrite !andb_true_iff, !negb_true_iff, !andb_false_iff, !Z.leb_le, !Z.leb_gt
      in Hp, Hq.
    unfold Utf8.units_of_point in H.
    destruct (Z.ltb_spec p 65536) as [Lp|Lp];
      destruct (Z.ltb_spec q 65536) as [Lq|Lq]; simpl in H.
    + injection H as -> H. f_equal. apply IH; assumption.
    + exfalso. injection H as Hh _. Z.div_mod_to_equations. lia.
    + exfalso. injection H as Hh _. Z.div_mod_to_equations. lia.
    + injection H as Hh Hl H.
      assert (p = q) by (Z.div_mod_to_equations; lia).
      subst q. f_equal. apply IH; assumption.
Qed.

(** Names that are the UTF-8 form of a string and are neither before nor
    after one another are the same name. *)
Lemma string_lt_both_false (a b : string) :
  Utf8.well_formed a = true -> Utf8.well_formed b = true ->
  string_lt a b = false -> string_lt b a = false -> a = b.
Proof.
  unfold Utf8.well_formed, string_lt, Utf8.code_units.
  rewrite !andb_true_iff. intros [Sa Ea] [Sb Eb] H1 H2.
  apply String.eqb_eq in Ea, Eb.
  pose proof (units_ltb_both_false _ _ H1 H2) as Hu.
  apply units_of_points_inj in Hu; [|assumption ..].
  rewrite <- Ea, <- Eb, Hu. reflexivity.
Qed.

Lemma string_lt_irrefl (a : string) : string_lt a a = false.
Proof. apply units_ltb_irrefl. Qed.

Lemma string_lt_asym (a b : string) : string_lt a b = true -> string_lt b a = false.
Proof. apply units_ltb_asym. Qed.

Lemma name_le_trans (x y z : string * string) :
  name_le x y -> name_le y z -> name_le x z.
Proof. unfold name_le, string_lt. apply units_le_trans. Qed.

(** The comparator puts [x] at or before [y] exactly when the name of [y]
    is not smaller. *)
Lemma compareEntries_le (x y : string * string) :
  (compareEntries x y <=? 0) = negb (string_lt (fst y) (fst x)).
Proof.
  unfold compareEntries. cbv zeta.
  destruct (string_lt (fst x) (fst y)) eqn:Hxy.
  - rewrite (string_lt_asym _ _ Hxy). reflexivity.
  - destruct (string_lt (fst y) (fst x)); reflexivity.
Qed.

Lemma sort_insert_named (n : string) (x : string * string) (l : list (string * string)) :
  entries_named n (sort_insert compareEntries x l)
  = if String.eqb (fst x) n then x :: entries_named n l else entries_named n l.
Proof.
  unfold entries_named. induction l as [|y l IH]; simpl.
  - reflexivity.
  - rewrite compareEntries_le.
    destruct (string_lt (fst y) (fst x)) eqn:Hlt; simpl.
    + rewrite IH. destruct (String.eqb (fst x) n) eqn:Hx; [|reflexivity].
      apply String.eqb_eq in Hx.
      assert (Hy : String.eqb (fst y) n = false).
      { apply String.eqb_neq. intros Hy. rewrite Hx, Hy, string_lt_irrefl in Hlt.
        discriminate. }
      rewrite Hy. reflexivity.
    + reflexivity.
Qed.

Lemma sort_insert_perm (x : string * string) (l : list (string * string)) :
  Permutation (x :: l) (sort_insert compareEntries x l).
Proof.
  induction l as [|y l IH]; simpl.
  - apply Permutation_refl.
  - destruct (compareEntries x y <=? 0).
    + apply Permutation_refl.
    + eapply perm_trans; [apply perm_swap | apply perm_skip, IH].
Qed.

Lemma sort_insert_sorted (x : string * string) (l : list (string * string)) :
  StronglySorted name_le l -> StronglySorted name_le (sort_insert compareEntries x l).
Proof.
  induction 1 as [|y l Hs IH Hy]; simpl.
  - repeat constructor.
  - rewrite compareEntries_le.
    destruct (string_lt (fst y) (fst x)) eqn:Hlt; simpl.
    + constructor; [exact IH|].
      apply List.Forall_forall. intros z Hz.
      apply (Permutation_in _ (Permutation_sym (sort_insert_perm x l))) in Hz.
      destruct Hz as [<- | Hz].
      * unfold name_le. apply string_lt_asym, Hlt.
      * rewrite List.Forall_forall in Hy. apply Hy, Hz.
    + constructor; [constructor; assumption|].
      constructor; [exact Hlt|].
      apply List.Forall_forall. intros z Hz.
      rewrite List.Forall_forall in Hy.
      apply (name_le_trans x y z); [exact Hlt | apply Hy, Hz].
Qed.

(** [Array_sort] with the comparator of [createCacheKey] is a stable sort
    by name: a permutation, in ascending order of names, in which the
    entries of one name keep their order. *)
Lemma Array_sort_perm (l : list (string * string)) :
  Permutation l (Array_sort compareEntries l).
Proof.
  induction l as [|x l IH]; simpl.
  - apply perm_nil.
  - eapply perm_trans; [apply perm_skip, IH | apply sort_insert_perm].
Qed.

Lemma Array_sort_sorted (l : list (string * string)) :
  StronglySorted name_le (Array_sort compareEntries l).
Proof.
  induction l as [|x l IH]; simpl.
  - constructor.
  - apply sort_insert_sorted, IH.
Qed.

Lemma Array_sort_stable (n : string) (l : list (string * string)) :
  entries_named n (Array_sort compareEntries l) = entries_named n l.
Proof.
  induction l as [|x l IH]; simpl.
  - reflexivity.
  - rewrite sort_insert_named, IH. unfold entries_named. simpl.
    destruct (String.eqb (fst x) n); reflexivity.
Qed.

(** A list that is in order already is left as it is. *)
Lemma Array_sort_sorted_id (l : list (string * string)) :
  StronglySorted name_le l -> Array_sort compareEntries l = l.
Proof.
  induction 1 as [|x l Hs IH Hx]; [reflexivity|].
  cbn [Array_sort fold_right]. fold (Array_sort compareEntries l). rewrite IH.
  destruct l as [|y l]; [reflexivity|].
  cbn [sort_insert]. rewrite compareEntries_le.
  apply List.Forall_inv in Hx. unfold name_le in Hx. rewrite Hx. reflexivity.
Qed.

Lemma entries_named_head (x : string * string) (l : list (string * string)) :
  entries_named (fst x) (x :: l) = x :: entries_named (fst x) l.
Proof. unfold entries_named. simpl. rewrite String.eqb_refl. reflexivity. Qed.

Lemma entries_named_in (n : string) (x : string * string) (l : list (string * string)) :
  In x (entries_named n l) -> In x l.
Proof. unfold entries_named. intros H. apply List.filter_In in H. tauto. Qed.

Lemma well_formed_params_in (l : list (string * string)) (x : string * string) :
  well_formed_params l = true -> In x l -> Utf8.well_formed (fst x) = true.
Proof.
  unfold well_formed_params. rewrite List.forallb_forall. intros H Hin.
  apply H in Hin. apply andb_true_iff in Hin. tauto.
Qed.

Lemma well_formed_params_perm (l l' : list (string * string)) :
  Permutation l l' -> well_formed_params l = true -> well_formed_params l' = true.
Proof.
  unfold well_formed_params. rewrite !List.forallb_forall. intros Hp H x Hx.
  apply H. apply (Permutation_in _ (Permutation_sym Hp)), Hx.
Qed.

(** Two lists of well-formed entries in ascending order of names with the
    same entries under every name are the same list. *)
Lemma sorted_by_name_unique (l1 l2 : list (string * string)) :
  well_formed_params l1 = true -> well_formed_params l2 = true ->
  StronglySorted name_le l1 -> StronglySorted name_le l2 ->
  (forall n, entries_named n l1 = entries_named n l2) -> l1 = l2.
Proof.
  intros W1 W2 H1. revert l2 W2. induction H1 as [|x l1 Hs1 IH Hx]; intros l2 W2 H2 Hn.
  - destruct l2 as [|y l2]; [reflexivity|].
    specialize (Hn (fst y)). rewrite entries_named_head in Hn. discriminate.
  - destruct H2 as [|y l2 Hs2 Hy].
    + specialize (Hn (fst x)). rewrite entries_named_head in Hn. discriminate.
    + assert (Hxy : name_le y x).
      { assert (Hin : In x (y :: l2)).
        { apply (entries_named_in (fst x)). rewrite <- Hn, entries_named_head.
          left. reflexivity. }
        destruct Hin as [<- | Hin]; [apply string_lt_irrefl|].
        rewrite List.Forall_forall in Hy. apply Hy, Hin. }
      assert (Hyx : name_le x y).
      { assert (Hin : In y (x :: l1)).
        { apply (entries_named_in (fst y)). rewrite Hn, entries_named_head.
          left. reflexivity. }
        destruct Hin as [<- | Hin]; [apply string_lt_irrefl|].
        rewrite List.Forall_forall in Hx. apply Hx, Hin. }
      assert (Hname : fst x = fst y).
      { apply string_lt_both_false; try assumption.
        - apply (well_formed_params_in _ x W1). left. reflexivity.
        - apply (well_formed_params_in _ y W2). left. reflexivity. }
      assert (Heq : x = y).
      { pose proof (Hn (fst x)) as H. rewrite entries_named_head in H.
        rewrite Hname, entries_named_head in H. congruence. }
      subst y. f_equal.
      simpl in W1, W2. apply andb_true_iff in W1, W2.
      apply IH; [tauto | tauto | exact Hs2|].
      intros n. specialize (Hn n). unfold entries_named in *. simpl in Hn.
      destruct (String.eqb (fst x) n); congruence.
Qed.

(** Sorting erases every difference of order except the order of the
    entries that share a name. *)
Lemma Array_sort_order_independent (l1 l2 : list (string * string)) :
  well_formed_params l1 = true -> well_formed_params l2 = true ->
  (forall n, entries_named n l1 = entries_named n l2) ->
  Array_sort compareEntries l1 = Array_sort compareEntries l2.
Proof.
  intros W1 W2 H. apply sorted_by_name_unique; try apply Array_sort_sorted.
  - apply (well_formed_params_perm l1); [apply Array_sort_perm | exact W1].
  - apply (well_formed_params_perm l2); [apply Array_sort_perm | exact W2].
  - intros n. rewrite !Array_sort_stable. apply H.
Qed.

(** ** The canonical cache key *)

Lemma searchParams_append_all (u : URL) (q : option string)
      (acc l : list (string * string)) :
  fold_left (fun n kv => searchParams_append n (fst kv) (snd kv)) l
            (set_query q u, acc)
  = (match l with
     | [] => set_query q u
     | _ :: _ => set_query (Some (Form.serialize (acc ++ l))) u
     end, acc ++ l).
Proof.
  revert q acc. induction l as [|x l IH]; intros q acc.
  - simpl. rewrite List.app_nil_r. reflexivity.
  - cbn [fold_left]. unfold searchParams_append at 2. cbn [fst snd].
    replace (set_query (Some (Form.serialize (acc ++ [(fst x, snd x)])))
                       (set_query q u))
      with (set_query (Some (Form.serialize (acc ++ [(fst x, snd x)]))) u)
      by reflexivity.
    rewrite IH. rewrite <- List.app_assoc. destruct x as [k v].
    cbn [fst snd List.app]. destruct l; reflexivity.
Qed.

(** The key is the URL with its query replaced by the serialisation of the
    sorted parameters, or by no query when there is no parameter. *)
Lemma createCacheKey_eq (url : URL) :
  createCacheKey url
  = Url.href (set_query
                match Array_sort compareEntries (searchParams url) with
                | [] => None
                | l => Some (Form.serialize l)
                end url).
Proof.
  unfold createCacheKey. cbv zeta.
  change (Url.set_search "" url) with (set_query None url).
  rewrite searchParams_append_all. simpl.
  destruct (Array_sort compareEntries (searchParams url)); reflexivity.
Qed.

(** C2: the code does not do what the claim and the comment above
    [createCacheKey] say (the same key whatever the order of the
    parameters).  The two URLs below have the same scheme, host and path
    and carry the same multiset of pairs, the name [a] twice with its two
    values in opposite orders; the comparator looks at names only and the
    sort is stable, so each query comes out as it went in, and the keys
    differ. *)
Lemma createCacheKey_repeated_name_order_matters :
  let u (q : string) :=
    {| scheme := "https"; username := ""; password := "";
       host := Some "cdn.example"; port := None; path := "/images/a.png";
       query := Some q; fragment := None |} in
  scheme (u "a=1&a=2") = scheme (u "a=2&a=1")
  /\ host (u "a=1&a=2") = host (u "a=2&a=1")
  /\ path (u "a=1&a=2") = path (u "a=2&a=1")
  /\ Permutation (searchParams (u "a=1&a=2")) (searchParams (u "a=2&a=1"))
  /\ createCacheKey (u "a=1&a=2") = "https://cdn.example/images/a.png?a=1&a=2"
  /\ createCacheKey (u "a=2&a=1") = "https://cdn.example/images/a.png?a=2&a=1"
  /\ createCacheKey (u "a=1&a=2") <> createCacheKey (u "a=2&a=1").
Proof.
  cbv zeta. repeat split; try reflexivity.
  - apply perm_swap.
  - vm_compute. discriminate.
Qed.

(** ** The max-age test against its declarative reading *)

Lemma literal_spec (p s r : string) :
  MaxAge.literal p s = Some r <-> s = (p ++ r)%string.
Proof.
  revert s. induction p as [|a p IH]; intros s; simpl.
  - split; intros H; [injection H as ->; reflexivity | subst; reflexivity].
  - destruct s as [|b s]; [split; discriminate|].
    destruct (Ascii.eqb_spec a b) as [<-|Hne].
    + rewrite IH. split; intros H; [subst; reflexivity | injection H as ->; reflexivity].
    + split; [discriminate | intros H; injection H as H _; symmetry in H; contradiction].
Qed.

Lemma all_spaces_nil : all_spaces "".
Proof. intros c []. Qed.

Lemma all_spaces_cons (c : ascii) (s : string) :
  all_spaces (String c s) <-> JS.is_space c = true /\ all_spaces s.
Proof.
  unfold all_spaces, chars. simpl. split.
  - intros H. split; [apply H; left; reflexivity | intros d Hd; apply H; right; exact Hd].
  - intros [Hc Hs] d [<- | Hd]; auto.
Qed.

Lemma skip_spaces_split (s : string) :
  exists ws, s = (ws ++ JS.skip_spaces s)%string /\ all_spaces ws.
Proof.
  induction s as [|c s IH]; simpl.
  - exists "". split; [reflexivity | apply all_spaces_nil].
  - destruct (JS.is_space c) eqn:Hc.
    + destruct IH as [ws [Hs Hws]]. exists (String c ws). split.
      * change (String c s = String c (ws ++ JS.skip_spaces s)%string).
        f_equal. exact Hs.
      * apply all_spaces_cons. split; assumption.
    + exists "". split; [reflexivity | apply all_spaces_nil].
Qed.

Lemma skip_spaces_app (ws : string) (c : ascii) (r : string) :
  all_spaces ws -> JS.is_space c = false ->
  JS.skip_spaces (ws ++ String c r) = String c r.
Proof.
  intros Hws Hc. induction ws as [|d ws IH]; simpl.
  - rewrite Hc. reflexivity.
  - apply all_spaces_cons in Hws. destruct Hws as [Hd Hws].
    rewrite Hd. apply IH, Hws.
Qed.

Lemma match_here_spec (prev : option ascii) (s : string) :
  MaxAge.match_here prev s = true <->
  exists ws1 ws2 post : string,
    s = ("max-age" ++ ws1 ++ "=" ++ ws2 ++ "0" ++ post)%string
    /\ all_spaces ws1 /\ all_spaces ws2
    /\ MaxAge.is_word_opt prev = false
    /\ MaxAge.is_word_opt (MaxAge.head post) = false.
Proof.
  unfold MaxAge.match_here. split.
  - intros H. apply andb_true_iff in H. destruct H as [Hb H].
    destruct (MaxAge.literal "max-age" s) as [r1|] eqn:H1; [|discriminate].
    destruct (MaxAge.literal "=" (JS.skip_spaces r1)) as [r2|] eqn:H2; [|discriminate].
    destruct (MaxAge.literal "0" (JS.skip_spaces r2)) as [r3|] eqn:H3; [|discriminate].
    apply literal_spec in H1, H2, H3.
    destruct (skip_spaces_split r1) as [ws1 [E1 Hws1]].
    destruct (skip_spaces_split r2) as [ws2 [E2 Hws2]].
    exists ws1, ws2, r3. repeat split; try assumption.
    + rewrite H1, E1, H2, E2, H3. reflexivity.
    + rewrite H1 in Hb. simpl in Hb. unfold MaxAge.boundary in Hb. simpl in Hb.
      destruct (MaxAge.is_word_opt prev); simpl in Hb; congruence.
    + unfold MaxAge.boundary in H. simpl in H.
      destruct (MaxAge.is_word_opt (MaxAge.head r3)); simpl in H; congruence.
  - intros (ws1 & ws2 & post & -> & Hws1 & Hws2 & Hprev & Hpost).
    apply andb_true_iff. split.
    + unfold MaxAge.boundary. rewrite Hprev. reflexivity.
    + assert (L1 : MaxAge.literal "max-age"
                     ("max-age" ++ ws1 ++ "=" ++ ws2 ++ "0" ++ post)
                   = Some (ws1 ++ "=" ++ ws2 ++ "0" ++ post)%string)
        by (apply literal_spec; reflexivity).
      rewrite L1.
      change ("=" ++ ws2 ++ "0" ++ post)%string
        with (String "=" (ws2 ++ "0" ++ post)).
      rewrite (skip_spaces_app ws1 "=" _ Hws1 eq_refl).
      cbn [MaxAge.literal]. rewrite Ascii.eqb_refl.
      change ("0" ++ post)%string with (String "0" post).
      rewrite (skip_spaces_app ws2 "0" _ Hws2 eq_refl).
      cbn [MaxAge.literal]. rewrite Ascii.eqb_refl.
      unfold MaxAge.boundary. rewrite Hpost. reflexivity.
Qed.

Lemma last_or_cons (prev : option ascii) (c : ascii) (pre : string) :
  last_or prev (String c pre) = last_or (Some c) pre.
Proof.
  unfold last_or, chars. simpl.
  destruct (list_ascii_of_string pre) as [|d l] eqn:E; [reflexivity|].
  simpl. clear E. revert d. induction l as [|e l IH]; intros d; [reflexivity|].
  simpl. simpl in IH. apply IH.
Qed.

Lemma search_spec (prev : option ascii) (s : string) :
  MaxAge.search prev s = true <->
  exists pre ws1 ws2 post : string,
    s = (pre ++ "max-age" ++ ws1 ++ "=" ++ ws2 ++ "0" ++ post)%string
    /\ all_spaces ws1 /\ all_spaces ws2
    /\ MaxAge.is_word_opt (last_or prev pre) = false
    /\ MaxAge.is_word_opt (MaxAge.head post) = false.
Proof.
  revert prev. induction s as [|c s IH]; intros prev; cbn [MaxAge.search].
  - rewrite orb_false_r, match_here_spec. split.
    + intros (ws1 & ws2 & post & H). exists "", ws1, ws2, post. exact H.
    + intros (pre & ws1 & ws2 & post & H & _). destruct pre; discriminate.
  - rewrite orb_true_iff, match_here_spec, IH. split.
    + intros [(ws1 & ws2 & post & H) | (pre & ws1 & ws2 & post & E & H1 & H2 & H3 & H4)].
      * exists "", ws1, ws2, post. exact H.
      * exists (String c pre), ws1, ws2, post. rewrite last_or_cons.
        repeat split; try assumption. simpl. rewrite E. reflexivity.
    + intros (pre & ws1 & ws2 & post & E & H1 & H2 & H3 & H4).
      destruct pre as [|d pre].
      * left. exists ws1, ws2, post. repeat split; assumption.
      * right. simpl in E. injection E as -> E. rewrite last_or_cons in H3.
        exists pre, ws1, ws2, post. repeat split; assumption.
Qed.

(** The matcher finds a match exactly in the strings in which the
    pattern occurs. *)
Lemma max_age_test_spec (s : string) :
  MaxAge.test s = true <-> max_age_zero_pattern s.
Proof. unfold MaxAge.test, max_age_zero_pattern. apply search_spec. Qed.

(** ** The cache-store policy *)

Lemma cacheable_spec (v : string) :
  cacheable v <->
  (JS.includes "no-store" (JS.toLowerCase v)
   || JS.includes "private" (JS.toLowerCase v)
   || MaxAge.test (JS.toLowerCase v)) = false.
Proof.
  unfold cacheable.
  rewrite <- !includes_spec, <- max_age_test_spec.
  destruct (JS.includes "no-store" (JS.toLowerCase v)),
           (JS.includes "private" (JS.toLowerCase v)),
           (MaxAge.test (JS.toLowerCase v)); simpl;
    split; intros H; try discriminate; try reflexivity;
    try (destruct H as (H1 & H2 & H3); exfalso;
         first [apply H1; reflexivity | apply H2; reflexivity | apply H3; reflexivity]).
  repeat split; discriminate.
Qed.

(** What [putCache] does, by cases on the header. *)
Lemma putCache_cases (request : Request) (response : Response) (cache : Cache) :
  (carries_nonempty_cacheable_header response
   /\ putCache request response cache
      = cache_put (createCacheKey (url request)) response cache)
  \/ (~ carries_nonempty_cacheable_header response
      /\ putCache request response cache = cache).
Proof.
  unfold putCache, carries_nonempty_cacheable_header.
  destruct (Http.get (headers response) "Cache-Control") as [v|].
  - destruct (JS.falsy v) eqn:Hf.
    + right. split; [|reflexivity]. apply falsy_spec in Hf.
      intros (v' & Hv & Hne & _). congruence.
    + cbv zeta.
      destruct (JS.includes "no-store" (JS.toLowerCase v)
                || JS.includes "private" (JS.toLowerCase v)
                || MaxAge.test (JS.toLowerCase v)) eqn:Hc.
      * right. split; [|reflexivity].
        intros (v' & Hv & _ & Hcache). injection Hv as <-.
        apply cacheable_spec in Hcache. congruence.
      * left. split; [|reflexivity]. exists v. repeat split.
        -- intros ->. discriminate.
        -- apply cacheable_spec, Hc.
        -- apply cacheable_spec, Hc.
        -- apply cacheable_spec, Hc.
  - right. split; [|reflexivity]. intros (v & Hv & _). discriminate.
Qed.

(** C5, as stated, fails, in both directions.  A response whose
    Cache-Control header is present with an empty value carries the header
    and its value holds none of the three markers: it is not stored.  The
    value [max-age=00] holds a [max-age] directive equal to zero: the
    response is stored.  The values [max-age=0.5] and [x-max-age=0] hold no
    [max-age] directive equal to zero: the responses are not stored. *)
Lemma putCache_is_not_the_directive_reading :
  let response (value : string) :=
    {| status := 200; statusText := "OK";
       headers := [("Content-Type", "image/png"); ("Cache-Control", value)];
       body := Bytes [] |} in
  let request :=
    {| url := {| scheme := "https"; username := ""; password := "";
                 host := Some "cdn.example"; port := None;
                 path := "/images/a.png"; query := None; fragment := None |};
       req_path := "/images/a.png"; req_headers := [];
       arrayBuffer := Return [] |} in
  let cache := {| entries := ∅; puts := []; keeps := fun _ _ => true |} in
  (Http.has (headers (response "")) "Cache-Control" = true
   /\ carries_cacheable_header (response "")
   /\ putCache request (response "") cache = cache)
  /\ (~ carries_cacheable_header (response "max-age=00")
      /\ puts (putCache request (response "max-age=00") cache)
         = [("https://cdn.example/images/a.png", response "max-age=00")])
  /\ (carries_cacheable_header (response "max-age=0.5")
      /\ putCache request (response "max-age=0.5") cache = cache)
  /\ (carries_cacheable_header (response "x-max-age=0")
      /\ putCache request (response "x-max-age=0") cache = cache).
Proof.
  cbv zeta.
  assert (Hno : forall sub v : string,
             JS.includes sub v = false -> ~ contains sub v).
  { intros sub v H Hc. apply includes_spec in Hc. congruence. }
  split; [|split; [|split]].
  - split; [reflexivity | split; [|reflexivity]].
    exists "". split; [reflexivity|].
    split; [apply Hno; reflexivity | split; [apply Hno|]; reflexivity].
  - split; [|reflexivity].
    intros (v & Hv & _ & _ & Hz). injection Hv as <-. discriminate Hz.
  - split; [|reflexivity].
    exists "max-age=0.5". split; [reflexivity|].
    split; [apply Hno; reflexivity | split; [apply Hno|]; reflexivity].
  - split; [|reflexivity].
    exists "x-max-age=0". split; [reflexivity|].
    split; [apply Hno; reflexivity | split; [apply Hno|]; reflexivity].
Qed.

(** C5 (amended): [putCache] hands a copy of the response to the cache
    store under the canonical cache key if and only if the response
    carries a non-empty Cache-Control header whose value, in lower case,
    contains neither [no-store] nor [private] nor a match of the pattern
    [\bmax-age\s*=\s*0\b]; in every other case it returns without
    writing to the cache store. *)
Theorem putCache_stores_iff (request : Request) (response : Response) (cache : Cache) :
  let key := createCacheKey (url request) in
  (carries_nonempty_cacheable_header response <->
     puts (putCache request response cache) = puts cache ++ [(key, response)])
  /\ (carries_nonempty_cacheable_header response ->
        putCache request response cache = cache_put key response cache)
  /\ (~ carries_nonempty_cacheable_header response ->
        putCache request response cache = cache).
Proof.
  cbv zeta.
  destruct (putCache_cases request response cache) as [[Hc Hp] | [Hc Hp]];
    rewrite Hp; (split; [|split]).
  - split; [reflexivity | intros _; exact Hc].
  - intros _. reflexivity.
  - intros Hn. contradiction.
  - split; [contradiction|]. intros H. exfalso.
    apply (f_equal (@List.length _)) in H. rewrite List.length_app in H.
    simpl in H. lia.
  - intros H. contradiction.
  - reflexivity.
Qed.

(** ** The origin gateway *)

(** The three ways [fetchFromOrigin] can go. *)
Lemma fetchFromOrigin_cases (P : Platform) (originUrl key : string)
      (params : list (string * string)) (w : World) :
  (exists base target,
      URL_new P originUrl None = Some base
      /\ (exists t, URL_new P (transform_reference key) (Some originUrl) = Some t
                    /\ target = Url.set_search (Form.serialize params) t)
      /\ Url.origin target = Url.origin base
      /\ fetchFromOrigin P originUrl key params w
         = (match network P (origin_request target) with
            | Return response => Return response
            | Throw error => Throw (translated error)
            end, sent (origin_request target) w))
  \/ (fetchFromOrigin P originUrl key params w
      = (Throw (HTTPException 400 "Invalid origin URL"), w))
  \/ ((URL_new P originUrl None = None
       \/ URL_new P (transform_reference key) (Some originUrl) = None)
      /\ fetchFromOrigin P originUrl key params w = (Throw invalid_url, w)).
Proof.
  unfold fetchFromOrigin, transform_reference. cbv zeta.
  destruct (URL_new P _ (Some originUrl)) as [t|] eqn:Ht;
    [|right; right; split; [right; reflexivity | reflexivity]].
  destruct (URL_new P originUrl None) as [base|] eqn:Hb;
    [|right; right; split; [left; reflexivity | reflexivity]].
  destruct (String.eqb_spec (Url.origin (Url.set_search (Form.serialize params) t))
                            (Url.origin base)) as [Ho|Ho]; cbn [negb].
  - left. exists base, (Url.set_search (Form.serialize params) t).
    split; [reflexivity | split; [exists t; split; reflexivity | split; [exact Ho|]]].
    unfold try_catch, mbind, M_bind, bind, fetch, ret, throw, origin_request, translated.
    destruct (network P _) as [response|error]; [reflexivity|].
    destruct (instanceofError error); cbn [andb]; [|reflexivity].
    destruct (String.eqb (error_name error) "TimeoutError"); reflexivity.
  - right. left. reflexivity.
Qed.

Lemma fetched_sent (req : FetchRequest) (w : World) :
  fetched (sent req w) = fetched w ++ [req].
Proof. reflexivity. Qed.

Lemma app_one_not_self {A} (l : list A) (x : A) : l <> l ++ [x].
Proof.
  intros H. apply (f_equal (@List.length A)) in H.
  rewrite List.length_app in H. simpl in H. lia.
Qed.

(** *** Keys that are any string of the language *)

Lemma units_cons (c : ascii) (s : string) :
  units (String c s) = JS.code c :: units s.
Proof. reflexivity. Qed.

(** One code unit below 256 is encoded as the character it is. *)
Lemma encodeURIComponent_unit (c : ascii) (s : JSString) :
  Utf16.encodeURIComponent (JS.code c :: s)
  = Utf16.prepend (fun r => if Uri.unreserved c then String c r
                            else Url.percent_char c r)
                  (Utf16.encodeURIComponent s).
Proof. destruct c as [[] [] [] [] [] [] [] []]; reflexivity. Qed.

(** On a key of code units below 256 the two encoders agree, and the
    general one does not throw. *)
Lemma encodeURIComponent_of_units (s : string) :
  Utf16.encodeURIComponent (units s) = Return (Uri.encodeURIComponent s).
Proof.
  induction s as [|c s IH]; [reflexivity|].
  rewrite units_cons, encodeURIComponent_unit, IH. reflexivity.
Qed.

Lemma fetchFromOrigin_of_units (P : Platform) (originUrl key : string)
      (params : list (string * string)) (w : World) :
  Utf16.fetchFromOrigin P originUrl (units key) params w
  = fetchFromOrigin P originUrl key params w.
Proof.
  unfold Utf16.fetchFromOrigin, fetchFromOrigin, mbind, M_bind, bind, lift.
  rewrite encodeURIComponent_of_units. reflexivity.
Qed.

(** [encodeURIComponent] throws on the strings in which a surrogate
    stands alone, and on no other; what it throws is the [URIError]. *)
Lemma encodeURIComponent_well_formed_upto (n : nat) (s : JSString) :
  (List.length s <= n)%nat ->
  (Utf16.well_formed s -> exists r, Utf16.encodeURIComponent s = Return r)
  /\ (forall e, Utf16.encodeURIComponent s = Throw e ->
        e = uri_error /\ ~ Utf16.well_formed s).
Proof.
  revert s. induction n as [|n IH]; intros s Hlen.
  - destruct s as [|u s]; [|simpl in Hlen; lia].
    split; [intros _; exists ""; reflexivity | intros e He; discriminate He].
  - destruct s as [|u s].
    + split; [intros _; exists ""; reflexivity | intros e He; discriminate He].
    + simpl in Hlen.
      assert (Hs : (List.length s <= n)%nat) by lia.
      destruct (IH s Hs) as [IHok IHbad].
      assert (Hprep : forall f,
                 (Utf16.well_formed s ->
                  exists r, Utf16.prepend f (Utf16.encodeURIComponent s) = Return r)
                 /\ (forall e, Utf16.prepend f (Utf16.encodeURIComponent s) = Throw e ->
                       e = uri_error /\ ~ Utf16.well_formed s)).
      { intros f. unfold Utf16.prepend.
        destruct (Utf16.encodeURIComponent s) as [r|e0] eqn:E.
        - split; [intros _; eexists; reflexivity | intros e He; discriminate He].
        - destruct (IHbad e0 eq_refl) as [-> Hn].
          split; [intros Hw; contradiction|].
          intros e He. injection He as <-. split; [reflexivity | exact Hn]. }
      cbn [Utf16.encodeURIComponent].
      destruct (Utf16.unreserved u) eqn:Hu.
      { assert (Hl : Utf16.is_lead u = false /\ Utf16.is_trail u = false).
        { unfold Utf16.unreserved in Hu. apply andb_true_iff in Hu.
          destruct Hu as [Hu _]. apply Z.ltb_lt in Hu.
          unfold Utf16.is_lead, Utf16.is_trail.
          split; apply andb_false_iff; left; apply Z.leb_gt; lia. }
        destruct Hl as [Hl Ht]. destruct (Hprep (String (Utf8.byte u))) as [Hok Hbad].
        split.
        - intros Hw. apply Hok. inversion Hw; subst; [assumption | congruence].
        - intros e He. destruct (Hbad e He) as [-> Hn]. split; [reflexivity|].
          intros Hw. apply Hn. inversion Hw; subst; [assumption | congruence]. }
      destruct (Utf16.is_trail u) eqn:Ht.
      { assert (Hl : Utf16.is_lead u = false).
        { unfold Utf16.is_lead, Utf16.is_trail in *. apply andb_true_iff in Ht.
          destruct Ht as [Ht _]. apply Z.leb_le in Ht.
          apply andb_false_iff. right. apply Z.leb_gt. lia. }
        split.
        - intros Hw. inversion Hw; subst; congruence.
        - intros e He. injection He as <-. split; [reflexivity|].
          intros Hw. inversion Hw; subst; congruence. }
      destruct (Utf16.is_lead u) eqn:Hl.
      { destruct s as [|v s'].
        - split.
          + intros Hw. inversion Hw; subst; congruence.
          + intros e He. injection He as <-. split; [reflexivity|].
            intros Hw. inversion Hw; subst; congruence.
        - destruct (Utf16.is_trail v) eqn:Hv.
          + simpl in Hs. assert (Hs' : (List.length s' <= n)%nat) by lia.
            destruct (IH s' Hs') as [IHok' IHbad'].
            unfold Utf16.prepend.
            destruct (Utf16.encodeURIComponent s') as [r|e0] eqn:E.
            * split; [intros _; eexists; reflexivity | intros e He; discriminate He].
            * destruct (IHbad' e0 eq_refl) as [-> Hn].
              split.
              -- intros Hw. exfalso. inversion Hw; subst; [congruence | contradiction].
              -- intros e He. injection He as <-. split; [reflexivity|].
                 intros Hw. inversion Hw; subst; [congruence | contradiction].
          + split.
            * intros Hw. inversion Hw; subst; congruence.
            * intros e He. injection He as <-. split; [reflexivity|].
              intros Hw. inversion Hw; subst; congruence. }
      destruct (Hprep (Utf16.percent_bytes (Utf8.encode_point u))) as [Hok Hbad].
      split.
      * intros Hw. apply Hok. inversion Hw; subst; [assumption | congruence].
      * intros e He. destruct (Hbad e He) as [-> Hn]. split; [reflexivity|].
        intros Hw. apply Hn. inversion Hw; subst; [assumption | congruence].
Qed.

Lemma encodeURIComponent_well_formed (s : JSString) :
  (Utf16.well_formed s -> exists r, Utf16.encodeURIComponent s = Return r)
  /\ (forall e, Utf16.encodeURIComponent s = Throw e ->
        e = uri_error /\ ~ Utf16.well_formed s).
Proof. exact (encodeURIComponent_well_formed_upto (List.length s) s (le_n _)). Qed.

(** The four ways [fetchFromOrigin] can go. *)
Lemma fetchFromOrigin_any_key_cases (P : Platform) (originUrl : string)
      (key : JSString) (params : list (string * string)) (w : World) :
  (exists reference base resolved,
      Utf16.transform_reference key = Some reference
      /\ URL_new P originUrl None = Some base
      /\ URL_new P reference (Some originUrl) = Some resolved
      /\ Url.origin (Url.set_search (Form.serialize params) resolved)
         = Url.origin base
      /\ Utf16.fetchFromOrigin P originUrl key params w
         = (match network P (origin_request
                               (Url.set_search (Form.serialize params) resolved)) with
            | Return response => Return response
            | Throw error => Throw (translated error)
            end,
            sent (origin_request (Url.set_search (Form.serialize params) resolved)) w))
  \/ (exists reference base resolved,
         Utf16.transform_reference key = Some reference
         /\ URL_new P originUrl None = Some base
         /\ URL_new P reference (Some originUrl) = Some resolved
         /\ Url.origin (Url.set_search (Form.serialize params) resolved)
            <> Url.origin base
         /\ Utf16.fetchFromOrigin P originUrl key params w
            = (Throw (HTTPException 400 "Invalid origin URL"), w))
  \/ ((URL_new P originUrl None = None
       \/ exists reference, Utf16.transform_reference key = Some reference
                            /\ URL_new P reference (Some originUrl) = None)
      /\ Utf16.fetchFromOrigin P originUrl key params w = (Throw invalid_url, w))
  \/ (~ Utf16.well_formed key
      /\ Utf16.fetchFromOrigin P originUrl key params w = (Throw uri_error, w)).
Proof.
  unfold Utf16.fetchFromOrigin, Utf16.transform_reference, mbind, M_bind, bind, lift.
  destruct (Utf16.encodeURIComponent key) as [encoded|e] eqn:He.
  2:{ right. right. right.
      destruct (proj2 (encodeURIComponent_well_formed key) e He) as [-> Hn].
      split; [exact Hn | reflexivity]. }
  cbv zeta.
  destruct (URL_new P _ (Some originUrl)) as [t|] eqn:Ht.
  2:{ right. right. left. split; [|reflexivity].
      right. eexists. split; [reflexivity | exact Ht]. }
  destruct (URL_new P originUrl None) as [base|] eqn:Hb.
  2:{ right. right. left. split; [left; reflexivity | reflexivity]. }
  destruct (String.eqb_spec (Url.origin (Url.set_search (Form.serialize params) t))
                            (Url.origin base)) as [Ho|Ho]; cbn [negb].
  - left. eexists _, base, t.
    split; [reflexivity | split; [reflexivity | split; [exact Ht | split; [exact Ho|]]]].
    unfold try_catch, mbind, M_bind, bind, fetch, ret, throw, origin_request, translated.
    destruct (network P _) as [response|error]; [reflexivity|].
    destruct (instanceofError error); cbn [andb]; [|reflexivity].
    destruct (String.eqb (error_name error) "TimeoutError"); reflexivity.
  - right. left. eexists _, base, t.
    split; [reflexivity | split; [reflexivity | split; [exact Ht | split; [exact Ho|]]]].
    reflexivity.
Qed.

(** C1, as stated, fails: there are calls that neither send a request nor
    throw the 400 client error.  With a configured base URL that the URL
    constructor does not accept the call ends on the constructor's
    [TypeError]; with a key in which a surrogate stands alone it ends on
    the [URIError] of [encodeURIComponent]. *)
Lemma fetchFromOrigin_other_failures :
  let refused :=
    Utf16.fetchFromOrigin Example.platform "origin.example" (units "a.png") []
                          Example.world in
  let malformed :=
    Utf16.fetchFromOrigin Example.platform "https://origin.example" [0xD83D] []
                          Example.world in
  (refused = (Throw invalid_url, Example.world)
   /\ fetched (snd refused) = fetched Example.world
   /\ fst refused <> Throw (HTTPException 400 "Invalid origin URL"))
  /\ (malformed = (Throw uri_error, Example.world)
      /\ fetched (snd malformed) = fetched Example.world
      /\ fst malformed <> Throw (HTTPException 400 "Invalid origin URL")).
Proof.
  cbv zeta. repeat split; try reflexivity; vm_compute; discriminate.
Qed.

(** C1 (amended): [fetchFromOrigin] either sends one request, whose URL
    has the origin of the configured base URL, or sends nothing and
    throws: the 400 client error when the origin of the URL it built is
    not the origin of the configured base URL, the [TypeError] of the URL
    constructor when the constructor does not accept the configured base
    URL or the reference built from the key, the [URIError] of
    [encodeURIComponent] when a surrogate stands alone in the key.  No
    request to another origin is ever made. *)
Theorem fetchFromOrigin_same_origin (P : Platform) (originUrl : string)
        (key : JSString) (params : list (string * string)) (w : World) :
  let out := Utf16.fetchFromOrigin P originUrl key params w in
  ((exists req, fetched (snd out) = fetched w ++ [req]
                /\ Utf16.to_configured_origin P originUrl key params req)
   \/ (fetched (snd out) = fetched w
       /\ fst out = Throw (HTTPException 400 "Invalid origin URL")
       /\ exists reference base resolved,
            Utf16.transform_reference key = Some reference
            /\ URL_new P originUrl None = Some base
            /\ URL_new P reference (Some originUrl) = Some resolved
            /\ Url.origin (Url.set_search (Form.serialize params) resolved)
               <> Url.origin base)
   \/ (fetched (snd out) = fetched w
       /\ fst out = Throw invalid_url
       /\ (URL_new P originUrl None = None
           \/ exists reference,
                Utf16.transform_reference key = Some reference
                /\ URL_new P reference (Some originUrl) = None))
   \/ (fetched (snd out) = fetched w
       /\ fst out = Throw uri_error
       /\ ~ Utf16.well_formed key))
  /\ (forall req, In req (fetched (snd out)) ->
        In req (fetched w)
        \/ Utf16.to_configured_origin P originUrl key params req).
Proof.
  cbv zeta.
  destruct (fetchFromOrigin_any_key_cases P originUrl key params w)
    as [(reference & base & t & Hr & Hb & Ht & Ho & ->)
       | [(reference & base & t & Hr & Hb & Ht & Ho & ->)
         | [[Hbad ->] | [Hbad ->]]]];
    cbn [fst snd].
  - assert (Hreq : Utf16.to_configured_origin P originUrl key params
                     (origin_request (Url.set_search (Form.serialize params) t)))
      by (exists reference, base, t; repeat split; assumption).
    split.
    + left. eexists. split; [reflexivity | exact Hreq].
    + intros req Hin. rewrite fetched_sent in Hin. apply in_app_or in Hin.
      destruct Hin as [Hin | [<- | []]]; [left; exact Hin | right; exact Hreq].
  - split; [|intros req Hin; left; exact Hin].
    right. left. split; [reflexivity | split; [reflexivity|]].
    exists reference, base, t. repeat split; assumption.
  - split; [|intros req Hin; left; exact Hin].
    right. right. left. repeat split. exact Hbad.
  - split; [|intros req Hin; left; exact Hin].
    right. right. right. repeat split. exact Hbad.
Qed.

(** C3: when the request that [fetchFromOrigin] sends (a GET with the
    30-second bound) fails, the caller gets a 504 Gateway Timeout if the
    failure is an [Error] named [TimeoutError] and a 502 Bad Gateway for
    every other failure; when it succeeds the origin's response is
    returned as it is. *)
Theorem fetchFromOrigin_failure_mapping (P : Platform) (originUrl key : string)
        (params : list (string * string)) (w : World) (req : FetchRequest) :
  fetched (snd (fetchFromOrigin P originUrl key params w)) = fetched w ++ [req] ->
  fetch_method req = "GET" /\ fetch_timeout req = 30000
  /\ (forall response, network P req = Return response ->
        fst (fetchFromOrigin P originUrl key params w) = Return response)
  /\ (forall error, network P req = Throw error ->
        (is_timeout error ->
           fst (fetchFromOrigin P originUrl key params w)
           = Throw (HTTPException 504 "Gateway Timeout"))
        /\ (~ is_timeout error ->
              fst (fetchFromOrigin P originUrl key params w)
              = Throw (HTTPException 502 "Bad Gateway"))).
Proof.
  destruct (fetchFromOrigin_cases P originUrl key params w)
    as [(base & target & _ & _ & _ & ->) | [-> | [_ ->]]]; cbn [fst snd];
    intros Hsent; try (exfalso; exact (app_one_not_self _ _ Hsent)).
  rewrite fetched_sent in Hsent. apply List.app_inv_head in Hsent.
  injection Hsent as <-.
  split; [reflexivity | split; [reflexivity | split]].
  - intros response ->. reflexivity.
  - intros error ->. unfold translated, is_timeout. split.
    + intros [message ->]. reflexivity.
    + intros Hn. destruct error as [name message| |st message]; try reflexivity.
      cbn [instanceofError error_name andb].
      destruct (String.eqb_spec name "TimeoutError") as [->|_]; [|reflexivity].
      exfalso. apply Hn. exists message. reflexivity.
Qed.

Lemma fetchFromOrigin_failure_mapping_witness :
  fst (fetchFromOrigin Example.platform "https://origin.example" "slow.png" []
                       Example.world)
  = Throw (HTTPException 504 "Gateway Timeout").
Proof.
  refine (proj1 (proj2 (proj2 (proj2
            (fetchFromOrigin_failure_mapping
               Example.platform "https://origin.example" "slow.png" []
               Example.world
               (origin_request
                  {| scheme := "https"; username := ""; password := "";
                     host := Some "origin.example"; port := None;
                     path := "/transform/slow.png"; query := None;
                     fragment := None |})
               eq_refl)))
            (JSError "TimeoutError" "The operation was aborted due to timeout")
            eq_refl) _).
  exists "The operation was aborted due to timeout". reflexivity.
Defined.

(** ** The read path *)

Lemma fetchFromOrigin_keeps_cache (P : Platform) (originUrl key : string)
      (params : list (string * string)) (w : World) :
  cache (snd (fetchFromOrigin P originUrl key params w)) = cache w
  /\ scheduled (snd (fetchFromOrigin P originUrl key params w)) = scheduled w.
Proof.
  destruct (fetchFromOrigin_cases P originUrl key params w)
    as [(base & target & _ & _ & _ & ->) | [-> | [_ ->]]]; split; reflexivity.
Qed.

(** The outcome of [get_images] by cases: no valid key, a cache hit, a
    failed origin fetch, an origin response. *)
Lemma get_images_cases (P : Platform) (env : Bindings) (request : Request) (w : World) :
  let out := get_images P env request w in
  (snd out = w)
  \/ (exists key e w',
         extractKeyFromPath (req_path request) = Some key
         /\ fetchFromOrigin P (ORIGIN_URL env) key (searchParams (url request)) w
            = (Throw e, w')
         /\ out = (Throw e, w'))
  \/ (exists key r w',
         extractKeyFromPath (req_path request) = Some key
         /\ validateKey key = true
         /\ matchCache request (cache w) = None
         /\ fetchFromOrigin P (ORIGIN_URL env) key (searchParams (url request)) w
            = (Return r, w')
         /\ fst out = Return {| status := status r; statusText := statusText r;
                                headers := Http.set (headers r) "X-Cache" "MISS";
                                body := body r |}
         /\ snd out = if ok r then snd (waitUntil_putCache request r w') else w').
Proof.
  cbv zeta. unfold get_images.
  destruct (extractKeyFromPath (req_path request)) as [key|]; [|left; reflexivity].
  destruct (validateKey key) eqn:Hv; cbn [negb]; [|left; reflexivity].
  destruct (matchCache request (cache w)) as [cached|] eqn:Hm; [left; reflexivity|].
  unfold mbind, M_bind, bind.
  destruct (fetchFromOrigin P (ORIGIN_URL env) key (searchParams (url request)) w)
    as [[r|e] w'] eqn:Hf.
  - right. right. exists key, r, w'.
    do 4 (split; [first [assumption | reflexivity]|]).
    unfold clone, waitUntil_putCache, ret. destruct (ok r); split; reflexivity.
  - right. left. exists key, e, w'.
    do 2 (split; [first [assumption | reflexivity]|]). reflexivity.
Qed.

(** C9: on the read path a cache write-back is scheduled only for an
    origin response whose status is in the 2xx range; for an origin
    response with any other status nothing is scheduled and the cache is
    left as it was, whatever Cache-Control header the response carries. *)
Theorem get_images_writes_back_only_ok_responses
        (P : Platform) (env : Bindings) (request : Request) (w : World) :
  let out := get_images P env request w in
  cache (snd out) = cache w
  /\ (scheduled (snd out) = scheduled w
      \/ exists key r w',
           extractKeyFromPath (req_path request) = Some key
           /\ fetchFromOrigin P (ORIGIN_URL env) key (searchParams (url request)) w
              = (Return r, w')
           /\ 200 <= status r <= 299
           /\ scheduled (snd out) = scheduled w ++ [(request, r)])
  /\ (forall key r w',
        extractKeyFromPath (req_path request) = Some key ->
        fetchFromOrigin P (ORIGIN_URL env) key (searchParams (url request)) w
        = (Return r, w') ->
        ~ (200 <= status r <= 299) ->
        scheduled (snd out) = scheduled w
        /\ run_scheduled (scheduled (snd out)) (cache (snd out))
           = run_scheduled (scheduled w) (cache w)).
Proof.
  cbv zeta.
  assert (Hok : forall r, ok r = true <-> 200 <= status r <= 299)
    by (intros r; unfold ok; rewrite andb_true_iff, !Z.leb_le; tauto).
  destruct (get_images_cases P env request w)
    as [Hw | [(key & e & w' & Hk & Hf & Hout) | (key & r & w' & Hk & Hv & Hm & Hf & Hres & Hout)]].
  - rewrite Hw. split; [reflexivity | split; [left; reflexivity|]].
    intros; split; reflexivity.
  - rewrite Hout. cbn [snd].
    pose proof (fetchFromOrigin_keeps_cache P (ORIGIN_URL env) key
                  (searchParams (url request)) w) as [Hc Hs].
    rewrite Hf in Hc, Hs. cbn [snd] in Hc, Hs. rewrite Hc, Hs.
    split; [reflexivity | split; [left; reflexivity|]].
    intros; split; reflexivity.
  - pose proof (fetchFromOrigin_keeps_cache P (ORIGIN_URL env) key
                  (searchParams (url request)) w) as [Hc Hs].
    rewrite Hf in Hc, Hs. cbn [snd] in Hc, Hs. rewrite Hout.
    destruct (ok r) eqn:Hr.
    + cbn [waitUntil_putCache snd cache scheduled]. rewrite Hc, Hs.
      split; [reflexivity | split].
      * right. exists key, r, w'. repeat split; try assumption; apply Hok, Hr.
      * intros key' r' w'' Hk' Hf' Hnot. exfalso.
        rewrite Hk in Hk'. injection Hk' as <-. rewrite Hf in Hf'.
        injection Hf' as <- <-. apply Hnot, Hok, Hr.
    + rewrite Hc, Hs. split; [reflexivity | split; [left; reflexivity|]].
      intros; split; reflexivity.
Qed.

Lemma get_images_writes_back_only_ok_responses_witness :
  let request := Example.request "/images/missing.png" None [] (Return []) in
  let out := get_images Example.platform Example.env request Example.world in
  carries_nonempty_cacheable_header Example.not_found
  /\ (exists resp, fst out = Return resp /\ status resp = 404)
  /\ scheduled (snd out) = []
  /\ puts (run_scheduled (scheduled (snd out)) (cache (snd out))) = [].
Proof.
  cbv zeta. split; [|split].
  - exists "public, max-age=3600". split; [reflexivity|]. split; [discriminate|].
    apply cacheable_spec. reflexivity.
  - eexists. split; reflexivity.
  - pose proof (proj2 (proj2 (get_images_writes_back_only_ok_responses
                  Example.platform Example.env
                  (Example.request "/images/missing.png" None [] (Return []))
                  Example.world))
                  "missing.png" Example.not_found
                  (sent (origin_request
                           {| scheme := "https"; username := ""; password := "";
                              host := Some "origin.example"; port := None;
                              path := "/transform/missing.png"; query := None;
                              fragment := None |}) Example.world)
                  eq_refl eq_refl) as H.
    assert (Hnot : ~ (200 <= status Example.not_found <= 299)) by (simpl; lia).
    destruct (H Hnot) as [Hs Hrun]. split; [exact Hs|].
    rewrite Hrun. reflexivity.
Defined.

(** ** The upload path *)

Lemma substring_whole (s : string) : substring 0 (String.length s) s = s.
Proof. induction s as [|c s IH]; simpl; [reflexivity | rewrite IH; reflexivity]. Qed.

Lemma extractKeyFromPath_images (key : string) :
  key <> "" -> extractKeyFromPath ("/images/" ++ key) = Some key.
Proof.
  intros Hne. unfold extractKeyFromPath, strip_prefix.
  change ("/images/" ++ key)%string
    with (String "/" (String "i" (String "m" (String "a" (String "g"
            (String "e" (String "s" (String "/" key)))))))).
  cbn [JS.startsWith Ascii.eqb Bool.eqb andb String.length Nat.sub substring].
  rewrite Nat.sub_0_r, substring_whole.
  destruct key; [contradiction | reflexivity].
Qed.

Lemma validateKey_nonempty (key : string) : validateKey key = true -> key <> "".
Proof. intros H ->. discriminate. Qed.

(** C8: a PUT for a valid key whose Content-Length header parses to a
    number above 10 MiB is answered with 413 and the request body is never
    read (nor is anything else touched). *)
Theorem put_images_declared_too_large
        (request : Request) (key contentLength : string) (n : Z) (w : World) :
  req_path request = ("/images/" ++ key)%string ->
  validateKey key = true ->
  Http.get (req_headers request) "Content-Length" = Some contentLength ->
  parseInt10 contentLength = Some n ->
  n > 10 * 1024 * 1024 ->
  exists response,
    put_images request w = (Return response, w)
    /\ status response = 413
    /\ body_reads (snd (put_images request w)) = body_reads w.
Proof.
  intros Hpath Hvalid Hcl Hparse Hn.
  unfold put_images.
  rewrite Hpath, (extractKeyFromPath_images key (validateKey_nonempty key Hvalid)).
  rewrite Hvalid, Hcl. cbn [negb]. unfold declared_too_large.
  destruct (JS.falsy contentLength) eqn:Hf.
  - apply falsy_spec in Hf. subst contentLength. discriminate.
  - rewrite Hparse.
    assert (Hgt : (n >? MAX_FILE_SIZE) = true)
      by (unfold MAX_FILE_SIZE; apply Z.gtb_lt; lia).
    rewrite Hgt. eexists. split; [reflexivity | split; reflexivity].
Qed.

Lemma put_images_declared_too_large_witness :
  exists response,
    put_images (Example.request "/images/x.png" None
                  [("Content-Length", "20000000")] (Return Example.png))
               Example.world
    = (Return response, Example.world)
    /\ status response = 413
    /\ body_reads (snd (put_images
                          (Example.request "/images/x.png" None
                             [("Content-Length", "20000000")] (Return Example.png))
                          Example.world)) = body_reads Example.world.
Proof.
  apply (put_images_declared_too_large
           (Example.request "/images/x.png" None
              [("Content-Length", "20000000")] (Return Example.png))
           "x.png" "20000000" 20000000 Example.world);
    [reflexivity | reflexivity | reflexivity | reflexivity | reflexivity].
Defined.

(** What the [catch] block of [put_images] answers. *)
Lemma put_images_catch_status (error : Thrown) (w : World) :
  exists response,
    (if instanceofError error && negb (JS.falsy (error_message error))
        && JS.includes "Unsupported file type" (error_message error)
     then ret (json [("error", JString "Unsupported media type")] 415)
     else ret (json [("error", JString "Internal server error")] 500)) w
    = (Return response, w)
    /\ (status response = 415 \/ status response = 500).
Proof.
  destruct (instanceofError error && negb (JS.falsy (error_message error))
            && JS.includes "Unsupported file type" (error_message error));
    eexists; (split; [reflexivity|]); [left | right]; reflexivity.
Qed.

(** C10: when the Content-Length header is absent or does not parse to a
    number, the check on the declared size does not reject the request:
    the body is read, and the answer is 413 exactly when the body that
    was read is longer than 10 MiB. *)
Theorem put_images_undeclared_size
        (request : Request) (key : string) (w : World) :
  req_path request = ("/images/" ++ key)%string ->
  validateKey key = true ->
  (Http.get (req_headers request) "Content-Length" = None
   \/ exists contentLength,
        Http.get (req_headers request) "Content-Length" = Some contentLength
        /\ parseInt10 contentLength = None) ->
  declared_too_large (Http.get (req_headers request) "Content-Length") = false
  /\ body_reads (snd (put_images request w)) = S (body_reads w)
  /\ (forall body, arrayBuffer request = Return body ->
        exists response,
          fst (put_images request w) = Return response
          /\ (status response = 413 <-> byteLength body > 10 * 1024 * 1024)).
Proof.
  intros Hpath Hvalid Hcl.
  assert (Hdecl : declared_too_large
                    (Http.get (req_headers request) "Content-Length") = false).
  { destruct Hcl as [-> | (cl & -> & Hnan)]; [reflexivity|].
    unfold declared_too_large. rewrite Hnan. destruct (JS.falsy cl); reflexivity. }
  split; [exact Hdecl|].
  unfold put_images.
  rewrite Hpath, (extractKeyFromPath_images key (validateKey_nonempty key Hvalid)).
  rewrite Hvalid, Hdecl. cbn [negb].
  unfold try_catch, mbind, M_bind, bind, read_body, lift, IMAGE_STORE_put.
  destruct (arrayBuffer request) as [body|e] eqn:Hbody.
  - destruct (byteLength body >? MAX_FILE_SIZE) eqn:Hsize.
    + split; [reflexivity|]. intros b Hb. injection Hb as <-.
      eexists. split; [reflexivity|]. simpl.
      apply Z.gtb_lt in Hsize. unfold MAX_FILE_SIZE in Hsize. split; [lia | reflexivity].
    + assert (Hle : ~ byteLength body > 10 * 1024 * 1024).
      { assert (H : ~ (MAX_FILE_SIZE < byteLength body))
          by (rewrite <- Z.gtb_lt, Hsize; discriminate).
        unfold MAX_FILE_SIZE in H. lia. }
      destruct (detectMimeType body) as [contentType|e].
      * cbn [put_error bucket].
        destruct (put_error (bucket w)) as [e|].
        -- match goal with
           | |- context [(if ?c then _ else _) ?w0] =>
               destruct (put_images_catch_status e w0) as (resp & -> & Hst)
           end.
           split; [reflexivity|]. intros b Hb. injection Hb as <-.
           exists resp. split; [reflexivity|]. split; [|contradiction].
           intros H413. destruct Hst as [Hst | Hst]; rewrite Hst in H413; discriminate.
        -- split; [reflexivity|]. intros b Hb. injection Hb as <-.
           eexists. split; [reflexivity|]. simpl. split; [discriminate | contradiction].
      * match goal with
        | |- context [(if ?c then _ else _) ?w0] =>
            destruct (put_images_catch_status e w0) as (resp & -> & Hst)
        end.
        split; [reflexivity|]. intros b Hb. injection Hb as <-.
        exists resp. split; [reflexivity|]. split; [|contradiction].
        intros H413. destruct Hst as [Hst | Hst]; rewrite Hst in H413; discriminate.
  - match goal with
    | |- context [(if ?c then _ else _) ?w0] =>
        destruct (put_images_catch_status e w0) as (resp & -> & Hst)
    end.
    split; [reflexivity|]. intros b Hb. discriminate.
Qed.

Lemma put_images_undeclared_size_witness :
  let request :=
    Example.request "/images/x.png" None [("Content-Length", "ten")]
                    (Return Example.png) in
  body_reads (snd (put_images request Example.world)) = 1%nat
  /\ exists response,
       fst (put_images request Example.world) = Return response
       /\ (status response = 413 <-> byteLength Example.png > 10 * 1024 * 1024).
Proof.
  cbv zeta.
  destruct (put_images_undeclared_size
              (Example.request "/images/x.png" None [("Content-Length", "ten")]
                               (Return Example.png))
              "x.png" Example.world eq_refl eq_refl
              (or_intror (ex_intro _ "ten" (conj eq_refl eq_refl))))
    as (_ & Hread & Hbody).
  split; [exact Hread | exact (Hbody Example.png eq_refl)].
Defined.

(** ** Further facts about the model *)

(** A validated key is sent to the origin as it is. *)
Lemma validated_key_is_sent_verbatim (key : string) :
  validateKey key = true ->
  transform_reference key = ("/transform/" ++ key)%string.
Proof.
  intros Hv. unfold transform_reference. f_equal.
  assert (Hall : JS.all_chars safeChar key = true).
  { unfold validateKey, safePattern_test in Hv.
    destruct (JS.falsy key || JS.includes ".." key || JS.startsWith "/" key
              || JS.includes "//" key); [discriminate|].
    apply andb_true_iff in Hv. tauto. }
  clear Hv. induction key as [|c key IH]; [reflexivity|].
  simpl in Hall. apply andb_true_iff in Hall. destruct Hall as [Hc Hall].
  specialize (IH Hall). cbn [Uri.encodeURIComponent].
  destruct c as [[] [] [] [] [] [] [] []]; try discriminate Hc;
    vm_compute (Uri.unreserved _); cbv iota;
    try (cbn [Uri.restore_slashes]; rewrite IH; reflexivity).
  change (Url.percent_char "/" (Uri.encodeURIComponent key))
    with (String "%" (String "2" (String "F" (Uri.encodeURIComponent key)))).
  cbn [Uri.restore_slashes]. rewrite IH. reflexivity.
Qed.

(** The scenarios of the specification, run on the example platform. *)

Example scenario_upload_jpeg :
  fst (put_images
         (Example.request "/images/a/b.png" None []
            (Return [0xff; 0xd8; 0xff; 0xe0; 0; 0x10; 0x4a; 0x46; 0x49; 0x46]))
         Example.world)
  = Return (json [("success", JBool true); ("key", JString "a/b.png")] 201).
Proof. reflexivity. Qed.

Example scenario_upload_unknown_signature :
  fst (put_images (Example.request "/images/x.png" None [] (Return [1; 2; 3; 4]))
                  Example.world)
  = Return (json [("error", JString "Unsupported media type")] 415).
Proof. reflexivity. Qed.

Example scenario_traversal_rejected :
  get_images Example.platform Example.env
             (Example.request "/images/../etc/passwd" None [] (Return []))
             Example.world
  = (Return (json [("error", JString "Invalid key format")] 400), Example.world).
Proof. reflexivity. Qed.

Example scenario_origin_unreachable :
  fst (get_images Example.platform Example.env
                  (Example.request "/images/other.png" None [] (Return []))
                  Example.world)
  = Throw (HTTPException 502 "Bad Gateway").
Proof. reflexivity. Qed.

Example scenario_miss_then_write_back :
  let request := Example.request "/images/a/b.png" (Some "w=100") [] (Return []) in
  let out := get_images Example.platform Example.env request Example.world in
  scheduled (snd out) = [(request, Example.found)]
  /\ puts (run_scheduled (scheduled (snd out)) (cache (snd out)))
     = [("https://cdn.example/images/a/b.png?w=100", Example.found)].
Proof. split; reflexivity. Qed.

Example scenario_origin_request :
  fetched (snd (fetchFromOrigin Example.platform "https://origin.example"
                                "a/b.png" [("w", "100")] Example.world))
  = [{| fetch_url := "https://origin.example/transform/a/b.png?w=100";
        fetch_method := "GET"; fetch_timeout := 30000 |}].
Proof. reflexivity. Qed.

(** Were the URL constructor to resolve the reference to another host, the
    guard would stop the call before anything is sent. *)
Example scenario_foreign_origin_refused :
  fetchFromOrigin Example.confused_platform "https://origin.example"
                  "a/b.png" [] Example.world
  = (Throw (HTTPException 400 "Invalid origin URL"), Example.world).
Proof. reflexivity. Qed.

(** Setting the query leaves the origin of a URL as it was: the
    parameters cannot move a request to another origin. *)
Lemma origin_set_search (value : string) (u : URL) :
  Url.origin (Url.set_search value u) = Url.origin u.
Proof.
  unfold Url.set_search. destruct (JS.falsy value); reflexivity.
Qed.

(** The declared-size check rejects exactly the headers that parse to a
    number above the ceiling. *)
Lemma declared_too_large_spec (contentLength : option string) :
  declared_too_large contentLength = true <->
  exists s n, contentLength = Some s /\ parseInt10 s = Some n /\ n > MAX_FILE_SIZE.
Proof.
  unfold declared_too_large. split.
  - destruct contentLength as [s|]; [|discriminate].
    destruct (JS.falsy s); [discriminate|].
    destruct (parseInt10 s) as [n|] eqn:Hp; [|discriminate].
    intros H. exists s, n. split; [reflexivity | split; [exact Hp|]].
    apply Z.gtb_lt in H. apply Z.lt_gt, H.
  - intros (s & n & -> & Hp & Hn).
    destruct (JS.falsy s) eqn:Hf.
    + apply falsy_spec in Hf. subst s. discriminate.
    + rewrite Hp. apply Z.gtb_lt, Z.gt_lt, Hn.
Qed.

(** * Further properties of the code *)

(** ** Form encoding: what is serialised parses back *)

Lemma form_decode_step (c : ascii) (r : string) :
  Form.decode (if Ascii.eqb c " " then String "+" r
               else if Form.unreserved c then String c r
               else Url.percent_byte c r)
  = String c (Form.decode r).
Proof. destruct c as [[] [] [] [] [] [] [] []]; reflexivity. Qed.

Lemma form_decode_encode (s : string) : Form.decode (Form.encode s) = s.
Proof.
  induction s as [|c s IH]; [reflexivity|].
  cbn [Form.encode]. rewrite form_decode_step, IH. reflexivity.
Qed.

Lemma append_cons (c : ascii) (a b : string) :
  (String c a ++ b)%string = String c (a ++ b)%string.
Proof. reflexivity. Qed.

Lemma append_empty (b : string) : ("" ++ b)%string = b.
Proof. reflexivity. Qed.

Lemma form_encode_step_plain (c : ascii) (r : string) :
  JS.all_chars plain (if Ascii.eqb c " " then String "+" r
                      else if Form.unreserved c then String c r
                      else Url.percent_byte c r)
  = JS.all_chars plain r.
Proof. destruct c as [[] [] [] [] [] [] [] []]; reflexivity. Qed.

Lemma form_encode_plain (s : string) : JS.all_chars plain (Form.encode s) = true.
Proof.
  induction s as [|c s IH]; [reflexivity|].
  cbn [Form.encode]. rewrite form_encode_step_plain. exact IH.
Qed.

Lemma all_chars_app (p : ascii -> bool) (a b : string) :
  JS.all_chars p (a ++ b) = JS.all_chars p a && JS.all_chars p b.
Proof.
  induction a as [|c a IH]; [reflexivity|].
  rewrite append_cons. cbn [JS.all_chars]. rewrite IH, andb_assoc. reflexivity.
Qed.

Lemma split_no_amp (a : string) :
  JS.all_chars no_amp a = true -> Form.split "&" a = [a].
Proof.
  induction a as [|c a IH]; [reflexivity|].
  cbn [JS.all_chars Form.split]. intros H. apply andb_true_iff in H.
  destruct H as [Hc Ha]. rewrite (IH Ha).
  unfold no_amp in Hc. destruct (Ascii.eqb c "&"); [discriminate | reflexivity].
Qed.

Lemma split_no_amp_app (a b : string) :
  JS.all_chars no_amp a = true ->
  Form.split "&" (a ++ String "&" b) = a :: Form.split "&" b.
Proof.
  induction a as [|c a IH]; intros H.
  - rewrite append_empty. reflexivity.
  - cbn [JS.all_chars] in H. apply andb_true_iff in H. destruct H as [Hc Ha].
    rewrite append_cons. cbn [Form.split]. rewrite (IH Ha).
    unfold no_amp in Hc. destruct (Ascii.eqb c "&"); [discriminate | reflexivity].
Qed.

Lemma plain_no_amp (s : string) :
  JS.all_chars plain s = true -> JS.all_chars no_amp s = true.
Proof.
  induction s as [|c s IH]; [reflexivity|].
  cbn [JS.all_chars]. rewrite !andb_true_iff. intros [Hc Hs].
  split; [|exact (IH Hs)]. unfold plain in Hc. unfold no_amp.
  destruct (Ascii.eqb c "&"); [discriminate | reflexivity].
Qed.

Lemma form_pair_no_amp (n v : string) :
  JS.all_chars no_amp (Form.encode n ++ String "=" (Form.encode v)) = true.
Proof.
  rewrite all_chars_app. cbn [JS.all_chars].
  rewrite !(plain_no_amp _ (form_encode_plain _)). reflexivity.
Qed.

Lemma cut_plain_app (a b : string) :
  JS.all_chars plain a = true -> Form.cut (a ++ String "=" b) = (a, b).
Proof.
  induction a as [|c a IH]; intros H.
  - rewrite append_empty. reflexivity.
  - cbn [JS.all_chars] in H. apply andb_true_iff in H. destruct H as [Hc Ha].
    rewrite append_cons. cbn [Form.cut]. rewrite (IH Ha).
    unfold plain in Hc.
    destruct (Ascii.eqb c "&"), (Ascii.eqb c "="); try discriminate; reflexivity.
Qed.

Lemma append_assoc (a b c : string) :
  ((a ++ b) ++ c)%string = (a ++ b ++ c)%string.
Proof.
  induction a as [|x a IH]; [reflexivity|].
  rewrite !append_cons, IH. reflexivity.
Qed.

(** One serialised pair: what it is and how it parses. *)
Lemma form_pair_falsy (n r : string) :
  JS.falsy (Form.encode n ++ String "=" r) = false.
Proof. destruct (Form.encode n); reflexivity. Qed.

Lemma form_parse_serialize (l : list (string * string)) :
  Form.parse (Form.serialize l) = l.
Proof.
  unfold Form.parse. induction l as [|[n v] l IH]; [reflexivity|].
  destruct l as [|[n' v'] l].
  - cbn [Form.serialize].
    change ("=" ++ Form.encode v)%string with (String "=" (Form.encode v)).
    rewrite split_no_amp by apply form_pair_no_amp.
    cbn [List.filter]. rewrite form_pair_falsy. cbn [negb List.map].
    rewrite cut_plain_app by apply form_encode_plain.
    rewrite !form_decode_encode. reflexivity.
  - remember ((n', v') :: l) as l' eqn:El.
    assert (Hs : Form.serialize ((n, v) :: l')
                 = ((Form.encode n ++ String "=" (Form.encode v))
                    ++ String "&" (Form.serialize l'))%string).
    { subst l'. cbn [Form.serialize].
      change ("=" ++ Form.encode v ++ "&" ++ Form.serialize ((n', v') :: l))%string
        with (String "=" (Form.encode v ++ String "&" (Form.serialize ((n', v') :: l)))).
      rewrite append_assoc, append_cons. reflexivity. }
    rewrite Hs, split_no_amp_app by apply form_pair_no_amp.
    cbn [List.filter]. rewrite form_pair_falsy. cbn [negb List.map].
    rewrite cut_plain_app by apply form_encode_plain.
    rewrite !form_decode_encode, IH. reflexivity.
Qed.

(** ** The canonical key of a URL *)

Lemma filter_perm {A} (f : A -> bool) (l1 l2 : list A) :
  Permutation l1 l2 -> Permutation (List.filter f l1) (List.filter f l2).
Proof.
  induction 1 as [|x l1 l2 _ IH|x y l|l1 l2 l3 _ IH1 _ IH2]; simpl.
  - apply perm_nil.
  - destruct (f x); [apply perm_skip|]; exact IH.
  - destruct (f x), (f y); try apply Permutation_refl. apply perm_swap.
  - eapply perm_trans; eassumption.
Qed.

Lemma entries_named_at_most_one (n : string) (l : list (string * string)) :
  List.NoDup (List.map fst l) -> (List.length (entries_named n l) <= 1)%nat.
Proof.
  unfold entries_named. induction l as [|x l IH]; intros Hnd; simpl; [lia|].
  simpl in Hnd. apply List.NoDup_cons_iff in Hnd. destruct Hnd as [Hx Hnd].
  specialize (IH Hnd).
  destruct (String.eqb_spec (fst x) n) as [<-|_]; [|exact IH].
  assert (H : List.filter (fun kv => String.eqb (fst kv) (fst x)) l = []).
  { clear IH Hnd. induction l as [|y l IHl]; simpl; [reflexivity|].
    simpl in Hx. destruct (String.eqb_spec (fst y) (fst x)) as [E|_].
    - exfalso. apply Hx. left. exact E.
    - apply IHl. intros Hin. apply Hx. right. exact Hin. }
  rewrite H. simpl. lia.
Qed.

(** Two URLs that differ in their query at most, with well-formed
    parameters that are, under every name, the same in the same order,
    have one key. *)
Lemma createCacheKey_same_entries (u1 u2 : URL) :
  same_but_query u1 u2 ->
  well_formed_params (searchParams u1) = true ->
  well_formed_params (searchParams u2) = true ->
  (forall n, entries_named n (searchParams u1) = entries_named n (searchParams u2)) ->
  createCacheKey u1 = createCacheKey u2.
Proof.
  intros Hsame W1 W2 Hnamed. rewrite !createCacheKey_eq.
  rewrite (Array_sort_order_independent _ _ W1 W2 Hnamed).
  destruct u1, u2. unfold same_but_query in Hsame. simpl in Hsame.
  destruct Hsame as (-> & -> & -> & -> & -> & -> & ->).
  reflexivity.
Qed.

(** X1: the key of a URL whose parameters are well-formed is the URL with,
    as its query, its parameters in ascending order of names (names
    compared by code units), the parameters of one name in the order in
    which they came, and no query when there is no parameter; the key of
    the URL so described is the same key again. *)
Theorem createCacheKey_canonical (url : URL) :
  well_formed_params (searchParams url) = true ->
  let sorted := Array_sort compareEntries (searchParams url) in
  let canonical :=
    set_query match sorted with
              | [] => None
              | x :: l => Some (Form.serialize (x :: l))
              end url in
  Permutation (searchParams url) sorted
  /\ StronglySorted name_le sorted
  /\ (forall n, entries_named n sorted = entries_named n (searchParams url))
  /\ createCacheKey url = Url.href canonical
  /\ searchParams canonical = sorted
  /\ createCacheKey canonical = createCacheKey url.
Proof.
  intros _. cbv zeta.
  assert (Hparams :
            searchParams
              (set_query match Array_sort compareEntries (searchParams url) with
                         | [] => None
                         | x :: l => Some (Form.serialize (x :: l))
                         end url)
            = Array_sort compareEntries (searchParams url)).
  { unfold searchParams at 1. cbn [query set_query].
    destruct (Array_sort compareEntries (searchParams url)) as [|x l] eqn:E;
      [reflexivity|]. apply form_parse_serialize. }
  split; [apply Array_sort_perm|].
  split; [apply Array_sort_sorted|].
  split; [intros n; apply Array_sort_stable|].
  split; [apply createCacheKey_eq | split; [exact Hparams|]].
  rewrite (createCacheKey_eq (set_query _ url)), Hparams.
  rewrite (Array_sort_sorted_id _ (Array_sort_sorted (searchParams url))).
  rewrite createCacheKey_eq.
  destruct (Array_sort compareEntries (searchParams url)); reflexivity.
Qed.

Lemma createCacheKey_canonical_witness :
  let u (q : string) :=
    {| scheme := "https"; username := ""; password := "";
       host := Some "cdn.example"; port := None; path := "/images/a.png";
       query := Some q; fragment := None |} in
  createCacheKey (u "w=100&a=1&h=50&a=2")
  = "https://cdn.example/images/a.png?a=1&a=2&h=50&w=100"
  /\ createCacheKey (u "a=1&a=2&h=50&w=100") = createCacheKey (u "w=100&a=1&h=50&a=2").
Proof.
  cbv zeta.
  pose proof (createCacheKey_canonical
                {| scheme := "https"; username := ""; password := "";
                   host := Some "cdn.example"; port := None;
                   path := "/images/a.png"; query := Some "w=100&a=1&h=50&a=2";
                   fragment := None |} eq_refl) as (_ & _ & _ & Hkey & _ & Hagain).
  split; [exact Hkey | exact Hagain].
Defined.

(** X2: a response that [putCache] hands to the cache store for a request
    is what [matchCache] finds afterwards, if the store keeps it: for that
    request and for every request whose URL differs in the order of
    differently named parameters only (the parameters being well-formed). *)
Theorem stored_response_is_matched
        (request request' : Request) (response : Response) (cache : Cache) :
  carries_nonempty_cacheable_header response ->
  keeps cache (createCacheKey (url request)) response = true ->
  same_but_query (url request) (url request') ->
  well_formed_params (searchParams (url request)) = true ->
  well_formed_params (searchParams (url request')) = true ->
  (forall n, entries_named n (searchParams (url request))
             = entries_named n (searchParams (url request'))) ->
  matchCache request (putCache request response cache) = Some response
  /\ matchCache request' (putCache request response cache) = Some response.
Proof.
  intros Hc Hkeeps Hsame W1 W2 Hnamed.
  destruct (putCache_cases request response cache) as [[_ ->] | [Hn _]];
    [|contradiction].
  unfold matchCache, cache_match, cache_put. cbn [entries]. rewrite Hkeeps.
  rewrite <- (createCacheKey_same_entries _ _ Hsame W1 W2 Hnamed).
  split; apply lookup_insert_eq.
Qed.

Lemma stored_response_is_matched_witness :
  let cache := {| entries := ∅; puts := []; keeps := fun _ _ => true |} in
  let request := Example.request "/images/a.png" (Some "w=100&h=50") [] (Return []) in
  let request' := Example.request "/images/a.png" (Some "h=50&w=100") [] (Return []) in
  matchCache request' (putCache request Example.found cache) = Some Example.found.
Proof.
  cbv zeta.
  refine (proj2 (stored_response_is_matched
                   (Example.request "/images/a.png" (Some "w=100&h=50") [] (Return []))
                   (Example.request "/images/a.png" (Some "h=50&w=100") [] (Return []))
                   Example.found
                   {| entries := ∅; puts := []; keeps := fun _ _ => true |}
                   _ eq_refl _ eq_refl eq_refl _)).
  - exists "public, max-age=3600". split; [reflexivity|]. split; [discriminate|].
    apply cacheable_spec. reflexivity.
  - repeat split.
  - intros n. unfold entries_named.
    change (searchParams (url (Example.request "/images/a.png" (Some "w=100&h=50")
                                               [] (Return []))))
      with [("w", "100"); ("h", "50")].
    change (searchParams (url (Example.request "/images/a.png" (Some "h=50&w=100")
                                               [] (Return []))))
      with [("h", "50"); ("w", "100")].
    cbn [List.filter fst].
    destruct (String.eqb_spec "w" n) as [<-|_]; [reflexivity|].
    destruct (String.eqb "h" n); reflexivity.
Defined.

(** X21: what the order of the parameters does to the key.  Two URLs that
    differ in their query at most, with well-formed parameters, have the
    same key when, under every name, they carry the same parameters in the
    same order; so when no name occurs twice the multiset of the
    parameters alone decides the key. *)
Theorem createCacheKey_parameter_order (u1 u2 : URL) :
  same_but_query u1 u2 ->
  well_formed_params (searchParams u1) = true ->
  well_formed_params (searchParams u2) = true ->
  ((forall n, entries_named n (searchParams u1) = entries_named n (searchParams u2)) ->
   createCacheKey u1 = createCacheKey u2)
  /\ (List.NoDup (List.map fst (searchParams u1)) ->
      Permutation (searchParams u1) (searchParams u2) ->
      createCacheKey u1 = createCacheKey u2).
Proof.
  intros Hsame W1 W2. split.
  - apply createCacheKey_same_entries; assumption.
  - intros Hnd Hperm. apply createCacheKey_same_entries; try assumption.
    intros n.
    pose proof (filter_perm (fun kv => String.eqb (fst kv) n) _ _ Hperm) as Hf.
    pose proof (entries_named_at_most_one n _ Hnd) as Hlen.
    unfold entries_named in *.
    destruct (List.filter _ (searchParams u1)) as [|x [|y l]].
    + apply Permutation_nil in Hf. rewrite Hf. reflexivity.
    + apply Permutation_length_1_inv in Hf. rewrite Hf. reflexivity.
    + simpl in Hlen. lia.
Qed.

Lemma createCacheKey_parameter_order_witness :
  let u (q : string) :=
    {| scheme := "https"; username := ""; password := "";
       host := Some "cdn.example"; port := None; path := "/images/a.png";
       query := Some q; fragment := None |} in
  createCacheKey (u "w=100&h=50&fit=cover") = createCacheKey (u "fit=cover&w=100&h=50").
Proof.
  cbv zeta.
  refine (proj2 (createCacheKey_parameter_order
                   {| scheme := "https"; username := ""; password := "";
                      host := Some "cdn.example"; port := None;
                      path := "/images/a.png"; query := Some "w=100&h=50&fit=cover";
                      fragment := None |}
                   {| scheme := "https"; username := ""; password := "";
                      host := Some "cdn.example"; port := None;
                      path := "/images/a.png"; query := Some "fit=cover&w=100&h=50";
                      fragment := None |}
                   _ eq_refl eq_refl) _ _).
  - repeat split.
  - change (List.NoDup ["w"; "h"; "fit"]).
    repeat (apply List.NoDup_cons; [simpl; intuition discriminate|]).
    apply List.NoDup_nil.
  - change (Permutation [("w", "100"); ("h", "50"); ("fit", "cover")]
                        [("fit", "cover"); ("w", "100"); ("h", "50")]).
    apply Permutation_sym.
    apply (Permutation_cons_app [("w", "100"); ("h", "50")] []).
    apply Permutation_refl.
Defined.

(** ** Headers: what [set] does to [get] *)

Lemma same_name_refl (n : string) : Http.same_name n n = true.
Proof. unfold Http.same_name. apply String.eqb_refl. Qed.

Lemma same_name_trans_false (a n m : string) :
  Http.same_name a n = true -> Http.same_name n m = false ->
  Http.same_name a m = false.
Proof.
  unfold Http.same_name. rewrite String.eqb_eq, !String.eqb_neq.
  intros -> H. exact H.
Qed.

Lemma same_name_exclusive (x n m : string) :
  Http.same_name n m = false -> Http.same_name x m = true ->
  Http.same_name x n = false.
Proof.
  unfold Http.same_name. rewrite String.eqb_eq, !String.eqb_neq.
  intros Hnm -> H. apply Hnm. symmetry. exact H.
Qed.

Lemma filter_named_set_same (h : Headers) (n v : string) :
  exists n0, List.filter (fun kv => Http.same_name (fst kv) n) (Http.set h n v)
             = [(n0, v)].
Proof.
  induction h as [|[a b] h IH]; cbn [Http.set].
  - exists n. cbn [List.filter fst]. rewrite same_name_refl. reflexivity.
  - destruct (Http.same_name a n) eqn:Ha.
    + exists a. cbn [List.filter fst]. rewrite Ha. f_equal.
      clear IH. induction h as [|[c d] h IHh]; [reflexivity|].
      cbn [List.filter fst]. destruct (Http.same_name c n) eqn:Hc; cbn [negb].
      * exact IHh.
      * cbn [List.filter fst]. rewrite Hc. exact IHh.
    + destruct IH as [n0 IH]. exists n0. cbn [List.filter fst]. rewrite Ha. exact IH.
Qed.

Lemma http_get_set_same (h : Headers) (n v : string) :
  Http.get (Http.set h n v) n = Some v.
Proof.
  unfold Http.get. destruct (filter_named_set_same h n v) as [n0 ->]. reflexivity.
Qed.

Lemma filter_named_set_other (h : Headers) (n v m : string) :
  Http.same_name n m = false ->
  List.filter (fun kv => Http.same_name (fst kv) m) (Http.set h n v)
  = List.filter (fun kv => Http.same_name (fst kv) m) h.
Proof.
  intros Hnm. induction h as [|[a b] h IH]; cbn [Http.set].
  - cbn [List.filter fst]. rewrite Hnm. reflexivity.
  - destruct (Http.same_name a n) eqn:Ha.
    + cbn [List.filter fst].
      rewrite (same_name_trans_false a n m Ha Hnm).
      clear IH. induction h as [|[c d] h IHh]; [reflexivity|].
      cbn [List.filter fst]. destruct (Http.same_name c m) eqn:Hc.
      * rewrite (same_name_exclusive c n m Hnm Hc). cbn [negb List.filter fst].
        rewrite Hc, IHh. reflexivity.
      * destruct (Http.same_name c n); cbn [negb List.filter fst];
          [|rewrite Hc]; exact IHh.
    + cbn [List.filter fst]. rewrite IH. reflexivity.
Qed.

Lemma http_get_set_other (h : Headers) (n v m : string) :
  Http.same_name n m = false ->
  Http.get (Http.set h n v) m = Http.get h m.
Proof.
  intros Hnm. unfold Http.get. rewrite (filter_named_set_other h n v m Hnm).
  reflexivity.
Qed.

(** ** The read path, case by case *)

Lemma get_images_hit_eq (P : Platform) (env : Bindings) (request : Request)
      (key : string) (cached : Response) (w : World) :
  req_path request = ("/images/" ++ key)%string ->
  validateKey key = true ->
  matchCache request (cache w) = Some cached ->
  get_images P env request w
  = (Return {| status := status cached; statusText := statusText cached;
               headers := Http.set (headers cached) "X-Cache" "HIT";
               body := body cached |}, w).
Proof.
  intros Hpath Hvalid Hhit. unfold get_images.
  rewrite Hpath, (extractKeyFromPath_images key (validateKey_nonempty key Hvalid)).
  rewrite Hvalid. cbn [negb]. cbv beta. rewrite Hhit. reflexivity.
Qed.

(** X4: a cache hit is answered from the cache alone: the world is left
    as it was (no request to the origin, nothing scheduled), the answer
    has the status, status text and body of the stored response, its
    X-Cache header is HIT whatever the stored response said, and every
    other header is that of the stored response. *)
Theorem get_images_hit (P : Platform) (env : Bindings) (request : Request)
        (key : string) (cached : Response) (w : World) :
  req_path request = ("/images/" ++ key)%string ->
  validateKey key = true ->
  matchCache request (cache w) = Some cached ->
  exists response,
    get_images P env request w = (Return response, w)
    /\ status response = status cached
    /\ statusText response = statusText cached
    /\ body response = body cached
    /\ Http.get (headers response) "X-Cache" = Some "HIT"
    /\ forall name, Http.same_name "X-Cache" name = false ->
         Http.get (headers response) name = Http.get (headers cached) name.
Proof.
  intros Hpath Hvalid Hhit.
  rewrite (get_images_hit_eq P env request key cached w Hpath Hvalid Hhit).
  eexists. split; [reflexivity|]. cbn [status statusText body headers].
  repeat split.
  - apply http_get_set_same.
  - intros name Hname. apply http_get_set_other, Hname.
Qed.

Lemma get_images_hit_witness :
  let request := Example.request "/images/a.png" None [] (Return []) in
  let stored :=
    {| status := 200; statusText := "OK";
       headers := [("X-Cache", "MISS"); ("Content-Type", "image/png")];
       body := Bytes Example.png |} in
  let w :=
    {| cache := cache_put "https://cdn.example/images/a.png" stored
                          {| entries := ∅; puts := []; keeps := fun _ _ => true |};
       bucket := {| objects := ∅; put_error := None |};
       fetched := []; body_reads := 0; scheduled := [] |} in
  exists response,
    get_images Example.platform Example.env request w = (Return response, w)
    /\ status response = 200
    /\ statusText response = "OK"
    /\ body response = Bytes Example.png
    /\ Http.get (headers response) "X-Cache" = Some "HIT"
    /\ forall name, Http.same_name "X-Cache" name = false ->
         Http.get (headers response) name
         = Http.get [("X-Cache", "MISS"); ("Content-Type", "image/png")] name.
Proof.
  intros request stored w.
  exact (get_images_hit Example.platform Example.env request "a.png" stored w
                        eq_refl eq_refl eq_refl).
Defined.

Lemma get_images_miss_eq (P : Platform) (env : Bindings) (request : Request)
      (key : string) (w : World) :
  req_path request = ("/images/" ++ key)%string ->
  validateKey key = true ->
  matchCache request (cache w) = None ->
  get_images P env request w
  = match fetchFromOrigin P (ORIGIN_URL env) key (searchParams (url request)) w with
    | (Return r, w') =>
        (Return {| status := status r; statusText := statusText r;
                   headers := Http.set (headers r) "X-Cache" "MISS";
                   body := body r |},
         if ok r then snd (waitUntil_putCache request r w') else w')
    | (Throw e, w') => (Throw e, w')
    end.
Proof.
  intros Hpath Hvalid Hmiss. unfold get_images.
  rewrite Hpath, (extractKeyFromPath_images key (validateKey_nonempty key Hvalid)).
  rewrite Hvalid. cbn [negb]. cbv beta. rewrite Hmiss.
  unfold mbind, M_bind, bind.
  destruct (fetchFromOrigin P (ORIGIN_URL env) key (searchParams (url request)) w)
    as [[r|e] w']; [|reflexivity].
  unfold clone, waitUntil_putCache, ret. destruct (ok r); reflexivity.
Qed.

(** X5: on a cache miss the origin's response is relayed, whether its
    status is a success or not, as long as the status is one that a
    response can be built with (200 to 599): the answer has its status,
    status text and body, its X-Cache header is MISS whatever the origin
    said, every other header is the origin's, and the only request sent
    is the one of [fetchFromOrigin]. *)
Theorem get_images_miss_relays
        (P : Platform) (env : Bindings) (request : Request) (key : string)
        (r : Response) (w w' : World) :
  req_path request = ("/images/" ++ key)%string ->
  validateKey key = true ->
  matchCache request (cache w) = None ->
  fetchFromOrigin P (ORIGIN_URL env) key (searchParams (url request)) w
  = (Return r, w') ->
  200 <= status r <= 599 ->
  exists response,
    fst (get_images P env request w) = Return response
    /\ status response = status r
    /\ statusText response = statusText r
    /\ body response = body r
    /\ Http.get (headers response) "X-Cache" = Some "MISS"
    /\ (forall name, Http.same_name "X-Cache" name = false ->
          Http.get (headers response) name = Http.get (headers r) name)
    /\ fetched (snd (get_images P env request w)) = fetched w'.
Proof.
  intros Hpath Hvalid Hmiss Hfetch _.
  rewrite (get_images_miss_eq P env request key w Hpath Hvalid Hmiss), Hfetch.
  eexists. split; [reflexivity|]. cbn [fst snd status statusText body headers].
  repeat split.
  - apply http_get_set_same.
  - intros name Hname. apply http_get_set_other, Hname.
  - destruct (ok r); reflexivity.
Qed.

Lemma get_images_miss_relays_witness :
  let request := Example.request "/images/missing.png" None [] (Return []) in
  exists response,
    fst (get_images Example.platform Example.env request Example.world)
    = Return response
    /\ status response = 404
    /\ Http.get (headers response) "X-Cache" = Some "MISS".
Proof.
  intros request.
  destruct (get_images_miss_relays Example.platform Example.env request
              "missing.png" Example.not_found Example.world
              (sent (origin_request
                       {| scheme := "https"; username := ""; password := "";
                          host := Some "origin.example"; port := None;
                          path := "/transform/missing.png"; query := None;
                          fragment := None |}) Example.world)
              eq_refl eq_refl eq_refl eq_refl ltac:(simpl; lia))
    as (response & H1 & H2 & _ & _ & H5 & _).
  exists response. split; [exact H1 | split; [exact H2 | exact H5]].
Defined.

(** X6: a failure of the origin fetch leaves the read path as the
    exception [fetchFromOrigin] throws: nothing is scheduled for the
    cache and the cache is not written. *)
Theorem get_images_origin_failure
        (P : Platform) (env : Bindings) (request : Request) (key : string)
        (e : Thrown) (w w' : World) :
  req_path request = ("/images/" ++ key)%string ->
  validateKey key = true ->
  matchCache request (cache w) = None ->
  fetchFromOrigin P (ORIGIN_URL env) key (searchParams (url request)) w
  = (Throw e, w') ->
  get_images P env request w = (Throw e, w')
  /\ scheduled w' = scheduled w /\ cache w' = cache w
  /\ run_scheduled (scheduled w') (cache w') = run_scheduled (scheduled w) (cache w).
Proof.
  intros Hpath Hvalid Hmiss Hfetch.
  rewrite (get_images_miss_eq P env request key w Hpath Hvalid Hmiss), Hfetch.
  split; [reflexivity|].
  pose proof (fetchFromOrigin_keeps_cache P (ORIGIN_URL env) key
                (searchParams (url request)) w) as [Hc Hs].
  rewrite Hfetch in Hc, Hs. cbn [snd] in Hc, Hs.
  split; [exact Hs | split; [exact Hc|]]. rewrite Hs, Hc. reflexivity.
Qed.

Lemma get_images_origin_failure_witness :
  let request := Example.request "/images/slow.png" None [] (Return []) in
  fst (get_images Example.platform Example.env request Example.world)
  = Throw (HTTPException 504 "Gateway Timeout").
Proof.
  intros request.
  pose proof (get_images_origin_failure Example.platform Example.env request
                "slow.png" (HTTPException 504 "Gateway Timeout") Example.world
                (sent (origin_request
                         {| scheme := "https"; username := ""; password := "";
                            host := Some "origin.example"; port := None;
                            path := "/transform/slow.png"; query := None;
                            fragment := None |}) Example.world)
                eq_refl eq_refl eq_refl eq_refl) as [H _].
  rewrite H. reflexivity.
Defined.

(** X7: miss, write-back, hit.  When a miss brings a 2xx response with a
    Cache-Control header that allows storing, and the cache store keeps
    the response it is then given, then once the scheduled write-back has
    run the same request is answered from the cache, with the origin's
    status and body and X-Cache HIT, on any platform and without a request
    to the origin. *)
Theorem get_images_miss_then_hit
        (P P' : Platform) (env : Bindings) (request : Request) (key : string)
        (r : Response) (w w1 w2 : World) :
  req_path request = ("/images/" ++ key)%string ->
  validateKey key = true ->
  matchCache request (cache w) = None ->
  scheduled w = [] ->
  fetchFromOrigin P (ORIGIN_URL env) key (searchParams (url request)) w
  = (Return r, w1) ->
  200 <= status r <= 299 ->
  carries_nonempty_cacheable_header r ->
  keeps (cache w) (createCacheKey (url request)) r = true ->
  cache w2 = run_scheduled (scheduled (snd (get_images P env request w)))
                           (cache (snd (get_images P env request w))) ->
  exists response,
    get_images P' env request w2 = (Return response, w2)
    /\ status response = status r
    /\ body response = body r
    /\ Http.get (headers response) "X-Cache" = Some "HIT".
Proof.
  intros Hpath Hvalid Hmiss Hsched Hfetch Hstatus Hcc Hkeeps Hw2.
  assert (Hok : ok r = true)
    by (unfold ok; apply andb_true_iff; rewrite !Z.leb_le; exact Hstatus).
  pose proof (fetchFromOrigin_keeps_cache P (ORIGIN_URL env) key
                (searchParams (url request)) w) as [Hc Hs].
  rewrite Hfetch in Hc, Hs. cbn [snd] in Hc, Hs.
  rewrite (get_images_miss_eq P env request key w Hpath Hvalid Hmiss),
    Hfetch, Hok in Hw2.
  cbn [snd waitUntil_putCache scheduled cache] in Hw2.
  rewrite Hs, Hsched, Hc in Hw2. cbn [List.app run_scheduled fold_left fst snd] in Hw2.
  assert (Hhit : matchCache request (cache w2) = Some r).
  { rewrite Hw2.
    destruct (putCache_cases request r (cache w)) as [[_ ->] | [Hn _]];
      [|contradiction].
    unfold matchCache, cache_match, cache_put. cbn [entries].
    rewrite Hkeeps. apply lookup_insert_eq. }
  rewrite (get_images_hit_eq P' env request key r w2 Hpath Hvalid Hhit).
  eexists. split; [reflexivity|]. cbn [status body headers].
  repeat split. apply http_get_set_same.
Qed.

Lemma get_images_miss_then_hit_witness :
  let request := Example.request "/images/a/b.png" (Some "w=100") [] (Return []) in
  let after := snd (get_images Example.platform Example.env request Example.world) in
  let w2 :=
    {| cache := run_scheduled (scheduled after) (cache after);
       bucket := bucket after; fetched := fetched after;
       body_reads := body_reads after; scheduled := [] |} in
  exists response,
    get_images Example.confused_platform Example.env request w2
    = (Return response, w2)
    /\ status response = 200
    /\ body response = Bytes Example.png
    /\ Http.get (headers response) "X-Cache" = Some "HIT".
Proof.
  intros request after w2.
  apply (get_images_miss_then_hit Example.platform Example.confused_platform
           Example.env request "a/b.png" Example.found Example.world
           (sent (origin_request
                    {| scheme := "https"; username := ""; password := "";
                       host := Some "origin.example"; port := None;
                       path := "/transform/a/b.png"; query := Some "w=100";
                       fragment := None |}) Example.world)
           w2 eq_refl eq_refl eq_refl eq_refl eq_refl).
  - simpl. lia.
  - exists "public, max-age=3600". split; [reflexivity|]. split; [discriminate|].
    apply cacheable_spec. reflexivity.
  - reflexivity.
  - reflexivity.
Defined.

(** ** Paths that carry no valid key *)

Lemma extractKeyFromPath_other (p : string) :
  JS.startsWith "/images/" p = false -> JS.startsWith "/" p = true ->
  extractKeyFromPath p = Some p.
Proof.
  intros Hno Hslash. unfold extractKeyFromPath, strip_prefix. rewrite Hno.
  destruct p; [discriminate | reflexivity].
Qed.

Lemma validateKey_leading_slash (key : string) :
  JS.startsWith "/" key = true -> validateKey key = false.
Proof.
  intros H. unfold validateKey. rewrite H.
  destruct (JS.falsy key), (JS.includes ".." key); reflexivity.
Qed.

(** The key of a path, when the handlers find a valid one. *)
Lemma valid_key_of_path (p : string) :
  JS.startsWith "/" p = true ->
  match extractKeyFromPath p with
  | Some key => validateKey key = true -> p = ("/images/" ++ key)%string
  | None => True
  end.
Proof.
  intros Hslash. destruct (JS.startsWith "/images/" p) eqn:Hpre.
  - apply startsWith_spec in Hpre. destruct Hpre as [rest ->].
    destruct rest as [|c rest]; [exact I|].
    rewrite extractKeyFromPath_images by discriminate. reflexivity.
  - rewrite (extractKeyFromPath_other p Hpre Hslash). intros Hv.
    rewrite (validateKey_leading_slash p Hslash) in Hv. discriminate.
Qed.

(** X8: a request whose path (which starts with a slash, as every request
    path does) is not [/images/] followed by a key that [validateKey]
    accepts is answered 400 "Invalid key format" by both handlers, and
    neither touches anything: no cache lookup result is used, no request
    goes out, the body is not read, nothing is stored. *)
Theorem handlers_reject_paths_without_valid_key
        (P : Platform) (env : Bindings) (request : Request) (w : World) :
  begins_with "/" (req_path request) ->
  (forall key, req_path request = ("/images/" ++ key)%string ->
               validateKey key = false) ->
  get_images P env request w = (Return invalid_key_response, w)
  /\ put_images request w = (Return invalid_key_response, w).
Proof.
  intros Hslash Hbad. apply startsWith_spec in Hslash.
  pose proof (valid_key_of_path (req_path request) Hslash) as Hkey.
  unfold get_images, put_images.
  destruct (extractKeyFromPath (req_path request)) as [key|]; [|split; reflexivity].
  destruct (validateKey key) eqn:Hv; [|split; reflexivity].
  rewrite (Hbad key (Hkey eq_refl)) in Hv. discriminate.
Qed.

Lemma handlers_reject_paths_without_valid_key_witness :
  let request := Example.request "/images/../etc/passwd" None [] (Return Example.png) in
  get_images Example.platform Example.env request Example.world
  = (Return invalid_key_response, Example.world)
  /\ put_images request Example.world = (Return invalid_key_response, Example.world).
Proof.
  intros request.
  apply (handlers_reject_paths_without_valid_key
           Example.platform Example.env request Example.world).
  - exists "images/../etc/passwd". reflexivity.
  - intros key Hkey.
    change (req_path request) with ("/images/" ++ "../etc/passwd")%string in Hkey.
    assert (Heq : key = "../etc/passwd").
    { revert Hkey. generalize "../etc/passwd". intros k Hk.
      change ("/images/" ++ k)%string
        with (String "/" (String "i" (String "m" (String "a" (String "g"
               (String "e" (String "s" (String "/" k)))))))) in Hk.
      change ("/images/" ++ key)%string
        with (String "/" (String "i" (String "m" (String "a" (String "g"
               (String "e" (String "s" (String "/" key)))))))) in Hk.
      congruence. }
    subst key. reflexivity.
Defined.

(** ** The upload path, case by case *)

Lemma put_images_cases (request : Request) (key : string) (w : World) :
  extractKeyFromPath (req_path request) = Some key ->
  validateKey key = true ->
  put_images request w
  = if declared_too_large (Http.get (req_headers request) "Content-Length")
    then (Return too_large_response, w)
    else match arrayBuffer request with
         | Throw e => (Return (caught e), read_once w)
         | Return body =>
             if byteLength body >? MAX_FILE_SIZE
             then (Return too_large_response, read_once w)
             else match detectMimeType body with
                  | Throw e => (Return (caught e), read_once w)
                  | Return contentType =>
                      match put_error (bucket w) with
                      | Some e => (Return (caught e), read_once w)
                      | None => (Return (created_response key),
                                 stored key body contentType (read_once w))
                      end
                  end
         end.
Proof.
  intros Hkey Hvalid. unfold put_images. rewrite Hkey, Hvalid. cbn [negb].
  destruct (declared_too_large _); [reflexivity|].
  unfold try_catch, mbind, M_bind, bind, read_body, lift, IMAGE_STORE_put, caught, ret.
  fold (read_once w).
  destruct (arrayBuffer request) as [body|e].
  - destruct (byteLength body >? MAX_FILE_SIZE); [reflexivity|].
    destruct (detectMimeType body) as [contentType|e].
    + cbn [bucket read_once put_error].
      destruct (put_error (bucket w)) as [e|].
      * destruct (instanceofError e && negb (JS.falsy (error_message e))
                  && JS.includes "Unsupported file type" (error_message e));
          reflexivity.
      * reflexivity.
    + destruct (instanceofError e && negb (JS.falsy (error_message e))
                && JS.includes "Unsupported file type" (error_message e));
        reflexivity.
  - destruct (instanceofError e && negb (JS.falsy (error_message e))
              && JS.includes "Unsupported file type" (error_message e));
      reflexivity.
Qed.

Lemma caught_status (e : Thrown) : status (caught e) = 415 \/ status (caught e) = 500.
Proof.
  unfold caught.
  destruct (instanceofError e && negb (JS.falsy (error_message e))
            && JS.includes "Unsupported file type" (error_message e));
    [left | right]; reflexivity.
Qed.

Lemma detectMimeType_image_types (buffer : ArrayBuffer) :
  match detectMimeType buffer with
  | Return contentType => In contentType image_types
  | Throw e => e = unsupported
  end.
Proof.
  unfold detectMimeType, image_types.
  repeat match goal with
         | |- context [if ?c then _ else _] => destruct c
         end; simpl; tauto.
Qed.

(** X9: the upload handler never throws: it always answers, with one of
    the statuses 201, 400, 413, 415 and 500; it reads the request body at
    most once and leaves the cache, the list of outbound requests and the
    scheduled tasks as they were. *)
Theorem put_images_always_answers (request : Request) (w : World) :
  exists response,
    fst (put_images request w) = Return response
    /\ In (status response) [201; 400; 413; 415; 500]
    /\ (body_reads (snd (put_images request w)) <= S (body_reads w))%nat
    /\ cache (snd (put_images request w)) = cache w
    /\ fetched (snd (put_images request w)) = fetched w
    /\ scheduled (snd (put_images request w)) = scheduled w.
Proof.
  assert (Hcaught : forall e, In (status (caught e)) [201; 400; 413; 415; 500])
    by (intros e; destruct (caught_status e) as [-> | ->]; simpl; tauto).
  assert (Hplain : forall response w',
             In (status response) [201; 400; 413; 415; 500] ->
             (body_reads w' <= S (body_reads w))%nat ->
             cache w' = cache w -> fetched w' = fetched w ->
             scheduled w' = scheduled w ->
             exists response0,
               fst (Return response, w') = Return response0
               /\ In (status response0) [201; 400; 413; 415; 500]
               /\ (body_reads (snd (Return response, w')) <= S (body_reads w))%nat
               /\ cache (snd (Return response, w')) = cache w
               /\ fetched (snd (Return response, w')) = fetched w
               /\ scheduled (snd (Return response, w')) = scheduled w).
  { intros response w' H1 H2 H3 H4 H5. exists response. cbn [fst snd].
    repeat split; assumption. }
  destruct (extractKeyFromPath (req_path request)) as [key|] eqn:Hkey.
  - destruct (validateKey key) eqn:Hvalid.
    + rewrite (put_images_cases request key w Hkey Hvalid).
      destruct (declared_too_large _);
        [apply Hplain; [simpl; tauto | lia | reflexivity ..]|].
      destruct (arrayBuffer request) as [body|e];
        [|apply Hplain; [apply Hcaught | simpl; lia | reflexivity ..]].
      destruct (byteLength body >? MAX_FILE_SIZE);
        [apply Hplain; [simpl; tauto | simpl; lia | reflexivity ..]|].
      destruct (detectMimeType body) as [contentType|e];
        [|apply Hplain; [apply Hcaught | simpl; lia | reflexivity ..]].
      destruct (put_error (bucket w)) as [e|];
        [apply Hplain; [apply Hcaught | simpl; lia | reflexivity ..]
        |apply Hplain; [simpl; tauto | simpl; lia | reflexivity ..]].
    + unfold put_images. rewrite Hkey, Hvalid. cbn [negb].
      apply Hplain; [simpl; tauto | lia | reflexivity ..].
  - unfold put_images. rewrite Hkey.
    apply Hplain; [simpl; tauto | lia | reflexivity ..].
Qed.

(** X10: an upload that passes every check is stored and can be read
    back: with a valid key, no rejecting Content-Length, a body of at most
    10 MiB that the sniffer recognises and a bucket that accepts the
    write, the answer is 201 with the key, the bucket holds the body with
    the sniffed type under the key, and every other object is untouched. *)
Theorem put_images_stores_the_upload
        (request : Request) (key : string) (body : ArrayBuffer)
        (contentType : string) (w : World) :
  req_path request = ("/images/" ++ key)%string ->
  validateKey key = true ->
  declared_too_large (Http.get (req_headers request) "Content-Length") = false ->
  arrayBuffer request = Return body ->
  byteLength body <= MAX_FILE_SIZE ->
  detectMimeType body = Return contentType ->
  put_error (bucket w) = None ->
  fst (put_images request w) = Return (created_response key)
  /\ objects (bucket (snd (put_images request w))) !! key = Some (body, contentType)
  /\ forall other, other <> key ->
       objects (bucket (snd (put_images request w))) !! other
       = objects (bucket w) !! other.
Proof.
  intros Hpath Hvalid Hdecl Hbody Hsize Htype Hput.
  assert (Hkey : extractKeyFromPath (req_path request) = Some key)
    by (rewrite Hpath; apply extractKeyFromPath_images, validateKey_nonempty, Hvalid).
  rewrite (put_images_cases request key w Hkey Hvalid), Hdecl, Hbody.
  assert (Hle : (byteLength body >? MAX_FILE_SIZE) = false).
  { destruct (byteLength body >? MAX_FILE_SIZE) eqn:E; [|reflexivity].
    apply Z.gtb_lt in E. lia. }
  rewrite Hle, Htype, Hput. cbn [fst snd stored bucket objects read_once].
  split; [reflexivity | split].
  - apply lookup_insert_eq.
  - intros other Hne. apply lookup_insert_ne. intros H. apply Hne. symmetry. exact H.
Qed.

Lemma put_images_stores_the_upload_witness :
  let request := Example.request "/images/a/b.png" None [("Content-Length", "16")]
                                 (Return Example.png) in
  fst (put_images request Example.world) = Return (created_response "a/b.png")
  /\ objects (bucket (snd (put_images request Example.world))) !! "a/b.png"
     = Some (Example.png, "image/png").
Proof.
  intros request.
  destruct (put_images_stores_the_upload request "a/b.png" Example.png "image/png"
              Example.world eq_refl eq_refl eq_refl eq_refl)
    as (H1 & H2 & _); try reflexivity.
  - unfold byteLength, MAX_FILE_SIZE. simpl. lia.
  - split; [exact H1 | exact H2].
Defined.

(** X11: the bucket only ever receives what passed the checks.  Whatever
    the request, either the answer is 201 and the bucket has gained,
    under a key that [validateKey] accepts, the body that was read, of at
    most 10 MiB, with the type the sniffer found for it, one of the five
    image types; or the answer is not 201 and the bucket is as it was. *)
Theorem put_images_stores_only_checked_uploads (request : Request) (w : World) :
  exists response,
    fst (put_images request w) = Return response
    /\ ((status response = 201
         /\ exists key body contentType,
              extractKeyFromPath (req_path request) = Some key
              /\ validateKey key = true
              /\ arrayBuffer request = Return body
              /\ byteLength body <= MAX_FILE_SIZE
              /\ detectMimeType body = Return contentType
              /\ In contentType image_types
              /\ objects (bucket (snd (put_images request w)))
                 = <[key := (body, contentType)]> (objects (bucket w)))
        \/ (status response <> 201
            /\ bucket (snd (put_images request w)) = bucket w)).
Proof.
  destruct (extractKeyFromPath (req_path request)) as [key|] eqn:Hkey.
  - destruct (validateKey key) eqn:Hvalid.
    + rewrite (put_images_cases request key w Hkey Hvalid).
      destruct (declared_too_large _).
      { eexists. split; [reflexivity|]. right. split; [discriminate | reflexivity]. }
      destruct (arrayBuffer request) as [body|e] eqn:Hbody.
      * destruct (byteLength body >? MAX_FILE_SIZE) eqn:Hsize.
        { eexists. split; [reflexivity|]. right. split; [discriminate | reflexivity]. }
        pose proof (detectMimeType_image_types body) as Htypes.
        destruct (detectMimeType body) as [contentType|e] eqn:Htype.
        -- destruct (put_error (bucket w)) as [e|].
           ++ eexists. split; [reflexivity|]. right. split; [|reflexivity].
              destruct (caught_status e) as [-> | ->]; discriminate.
           ++ eexists. split; [reflexivity|]. left. split; [reflexivity|].
              exists key, body, contentType. repeat split; auto.
              assert (H : ~ (MAX_FILE_SIZE < byteLength body))
                by (rewrite <- Z.gtb_lt, Hsize; discriminate).
              lia.
        -- eexists. split; [reflexivity|]. right. split; [|reflexivity].
           destruct (caught_status e) as [-> | ->]; discriminate.
      * eexists. split; [reflexivity|]. right. split; [|reflexivity].
        destruct (caught_status e) as [-> | ->]; discriminate.
    + unfold put_images. rewrite Hkey, Hvalid.
      eexists. split; [reflexivity|]. right. split; [discriminate | reflexivity].
  - unfold put_images. rewrite Hkey.
    eexists. split; [reflexivity|]. right. split; [discriminate | reflexivity].
Qed.

(** X12: the ceiling holds whatever the request declares: with a valid
    key, a body that turns out longer than 10 MiB is answered 413 and
    nothing is stored, be the Content-Length absent, unreadable, truthful
    or too small. *)
Theorem put_images_oversized_body
        (request : Request) (key : string) (body : ArrayBuffer) (w : World) :
  req_path request = ("/images/" ++ key)%string ->
  validateKey key = true ->
  arrayBuffer request = Return body ->
  byteLength body > MAX_FILE_SIZE ->
  fst (put_images request w) = Return too_large_response
  /\ bucket (snd (put_images request w)) = bucket w.
Proof.
  intros Hpath Hvalid Hbody Hsize.
  assert (Hkey : extractKeyFromPath (req_path request) = Some key)
    by (rewrite Hpath; apply extractKeyFromPath_images, validateKey_nonempty, Hvalid).
  rewrite (put_images_cases request key w Hkey Hvalid), Hbody.
  assert (Hgt : (byteLength body >? MAX_FILE_SIZE) = true) by (apply Z.gtb_lt; lia).
  rewrite Hgt. destruct (declared_too_large _); split; reflexivity.
Qed.

Lemma put_images_oversized_body_witness :
  let body := List.repeat 0 (Z.to_nat (MAX_FILE_SIZE + 1)) in
  let request := Example.request "/images/x.png" None [("Content-Length", "1")]
                                 (Return body) in
  fst (put_images request Example.world) = Return too_large_response
  /\ bucket (snd (put_images request Example.world)) = bucket Example.world.
Proof.
  intros body request.
  refine (put_images_oversized_body request "x.png" body Example.world
                                    eq_refl eq_refl eq_refl _).
  unfold byteLength, body. rewrite List.repeat_length, Z2Nat.id.
  - lia.
  - unfold MAX_FILE_SIZE. lia.
Defined.

(** X13: how the upload handler answers an exception thrown while the
    body is read or while the object is stored: 415 when the thrown value
    is an [Error] whose message contains "Unsupported file type", 500 for
    everything else; in both cases nothing is stored. *)
Theorem put_images_failure_answers
        (request : Request) (key : string) (e : Thrown) (w : World) :
  req_path request = ("/images/" ++ key)%string ->
  validateKey key = true ->
  declared_too_large (Http.get (req_headers request) "Content-Length") = false ->
  (arrayBuffer request = Throw e
   \/ exists body contentType,
        arrayBuffer request = Return body
        /\ byteLength body <= MAX_FILE_SIZE
        /\ detectMimeType body = Return contentType
        /\ put_error (bucket w) = Some e) ->
  exists response,
    fst (put_images request w) = Return response
    /\ (instanceofError e = true
        /\ contains "Unsupported file type" (error_message e) ->
        status response = 415)
    /\ (~ (instanceofError e = true
           /\ contains "Unsupported file type" (error_message e)) ->
        status response = 500)
    /\ bucket (snd (put_images request w)) = bucket w.
Proof.
  intros Hpath Hvalid Hdecl Hfail.
  assert (Hkey : extractKeyFromPath (req_path request) = Some key)
    by (rewrite Hpath; apply extractKeyFromPath_images, validateKey_nonempty, Hvalid).
  assert (Hout : put_images request w = (Return (caught e), read_once w)).
  { rewrite (put_images_cases request key w Hkey Hvalid), Hdecl.
    destruct Hfail as [-> | (body & contentType & -> & Hsize & -> & ->)];
      [reflexivity|].
    assert (Hle : (byteLength body >? MAX_FILE_SIZE) = false).
    { destruct (byteLength body >? MAX_FILE_SIZE) eqn:E; [|reflexivity].
      apply Z.gtb_lt in E. lia. }
    rewrite Hle. reflexivity. }
  rewrite Hout. exists (caught e). cbn [fst snd].
  split; [reflexivity | split; [|split; [|reflexivity]]]; unfold caught.
  - intros [Herr Hmsg]. apply includes_spec in Hmsg. rewrite Herr, Hmsg.
    destruct (error_message e); [discriminate Hmsg | reflexivity].
  - intros Hnot.
    destruct (instanceofError e) eqn:Herr; [|reflexivity].
    destruct (JS.includes "Unsupported file type" (error_message e)) eqn:Hmsg.
    + exfalso. apply Hnot. split; [reflexivity | apply includes_spec, Hmsg].
    + rewrite andb_false_r. reflexivity.
Qed.

Lemma put_images_failure_answers_witness :
  let request := Example.request "/images/x.png" None []
                   (Throw (JSError "TypeError" "body stream already read")) in
  exists response,
    fst (put_images request Example.world) = Return response
    /\ status response = 500.
Proof.
  intros request.
  destruct (put_images_failure_answers request "x.png"
              (JSError "TypeError" "body stream already read") Example.world
              eq_refl eq_refl eq_refl (or_introl eq_refl))
    as (response & H1 & _ & H3 & _).
  exists response. split; [exact H1|]. apply H3.
  intros [_ Hmsg]. apply includes_spec in Hmsg. discriminate.
Defined.

(** X14: a body that no signature of the table recognises is answered 415
    and is not stored. *)
Theorem put_images_unrecognised_body
        (request : Request) (key : string) (body : ArrayBuffer) (w : World) :
  req_path request = ("/images/" ++ key)%string ->
  validateKey key = true ->
  declared_too_large (Http.get (req_headers request) "Content-Length") = false ->
  arrayBuffer request = Return body ->
  byteLength body <= MAX_FILE_SIZE ->
  (forall s, In s signature_table -> ~ sig_matches (firstn 16 body) s) ->
  fst (put_images request w)
  = Return (json [("error", JString "Unsupported media type")] 415)
  /\ bucket (snd (put_images request w)) = bucket w.
Proof.
  intros Hpath Hvalid Hdecl Hbody Hsize Hnone.
  assert (Hkey : extractKeyFromPath (req_path request) = Some key)
    by (rewrite Hpath; apply extractKeyFromPath_images, validateKey_nonempty, Hvalid).
  assert (Hthrow : detectMimeType body = Throw unsupported).
  { rewrite detectMimeType_by_table.
    apply (proj1 (sniff_by_table_spec (firstn 16 body))), Hnone. }
  rewrite (put_images_cases request key w Hkey Hvalid), Hdecl, Hbody.
  assert (Hle : (byteLength body >? MAX_FILE_SIZE) = false).
  { destruct (byteLength body >? MAX_FILE_SIZE) eqn:E; [|reflexivity].
    apply Z.gtb_lt in E. lia. }
  rewrite Hle, Hthrow. split; reflexivity.
Qed.

Lemma put_images_unrecognised_body_witness :
  let request := Example.request "/images/x.png" None [] (Return [1; 2; 3; 4]) in
  fst (put_images request Example.world)
  = Return (json [("error", JString "Unsupported media type")] 415)
  /\ bucket (snd (put_images request Example.world)) = bucket Example.world.
Proof.
  intros request.
  apply (put_images_unrecognised_body request "x.png" [1; 2; 3; 4] Example.world);
    try reflexivity.
  - unfold byteLength, MAX_FILE_SIZE. simpl. lia.
  - intros s Hs Hmatch. apply sig_matchesb_spec in Hmatch.
    simpl in Hs.
    repeat (destruct Hs as [<- | Hs]; [discriminate Hmatch|]). contradiction.
Defined.

(** X15: the read path never touches the bucket or the request body, and
    sends at most one request. *)
Theorem get_images_keeps_bucket_and_body
        (P : Platform) (env : Bindings) (request : Request) (w : World) :
  let out := get_images P env request w in
  bucket (snd out) = bucket w
  /\ body_reads (snd out) = body_reads w
  /\ (fetched (snd out) = fetched w
      \/ exists req, fetched (snd out) = fetched w ++ [req]
                     /\ fetch_method req = "GET").
Proof.
  cbv zeta.
  assert (Hfetch : forall key,
             let o := fetchFromOrigin P (ORIGIN_URL env) key
                                      (searchParams (url request)) w in
             bucket (snd o) = bucket w /\ body_reads (snd o) = body_reads w
             /\ (fetched (snd o) = fetched w
                 \/ exists req, fetched (snd o) = fetched w ++ [req]
                                /\ fetch_method req = "GET")).
  { intros key. cbv zeta.
    destruct (fetchFromOrigin_cases P (ORIGIN_URL env) key
                (searchParams (url request)) w)
      as [(base & target & _ & _ & _ & ->) | [-> | [_ ->]]]; cbn [snd].
    - repeat split. right. exists (origin_request target). split; reflexivity.
    - repeat split. left. reflexivity.
    - repeat split. left. reflexivity. }
  destruct (get_images_cases P env request w)
    as [-> | [(key & e & w' & _ & Hf & ->) | (key & r & w' & _ & _ & _ & Hf & _ & ->)]].
  - repeat split. left. reflexivity.
  - specialize (Hfetch key). cbv zeta in Hfetch. rewrite Hf in Hfetch. exact Hfetch.
  - specialize (Hfetch key). cbv zeta in Hfetch. rewrite Hf in Hfetch.
    cbn [snd] in Hfetch. destruct (ok r); exact Hfetch.
Qed.

(** ** The origin gateway: outcomes, the encoded key, the query *)

(** X16: [fetchFromOrigin] changes nothing but the list of outbound
    requests, to which it adds at most one; what it returns is the
    response the network gave to that request, and what it throws is
    never the raw failure of the network: only the 400, 502 and 504
    exceptions, the [TypeError] of the URL constructor and the [URIError]
    of [encodeURIComponent] leave it, the last three of them with no
    request sent. *)
Theorem fetchFromOrigin_outcomes (P : Platform) (originUrl : string)
        (key : JSString) (params : list (string * string)) (w : World) :
  let out := Utf16.fetchFromOrigin P originUrl key params w in
  cache (snd out) = cache w /\ bucket (snd out) = bucket w
  /\ body_reads (snd out) = body_reads w /\ scheduled (snd out) = scheduled w
  /\ match fst out with
     | Return response =>
         exists req, fetched (snd out) = fetched w ++ [req]
                     /\ network P req = Return response
     | Throw e =>
         (e = HTTPException 400 "Invalid origin URL" /\ fetched (snd out) = fetched w)
         \/ (e = invalid_url /\ fetched (snd out) = fetched w)
         \/ (e = uri_error /\ fetched (snd out) = fetched w)
         \/ ((e = HTTPException 502 "Bad Gateway"
              \/ e = HTTPException 504 "Gateway Timeout")
             /\ exists req error,
                  fetched (snd out) = fetched w ++ [req]
                  /\ network P req = Throw error)
     end.
Proof.
  cbv zeta.
  destruct (fetchFromOrigin_any_key_cases P originUrl key params w)
    as [(reference & base & t & _ & _ & _ & _ & ->)
       | [(reference & base & t & _ & _ & _ & _ & ->)
         | [[_ ->] | [_ ->]]]];
    cbn [fst snd].
  - do 4 (split; [reflexivity|]).
    set (target := Url.set_search (Form.serialize params) t).
    destruct (network P (origin_request target)) as [response|error] eqn:Hn.
    + exists (origin_request target). split; [reflexivity | exact Hn].
    + right. right. right. split.
      * unfold translated.
        destruct (instanceofError error && String.eqb (error_name error) "TimeoutError");
          [right | left]; reflexivity.
      * exists (origin_request target), error. split; [reflexivity | exact Hn].
  - do 4 (split; [reflexivity|]). left. split; reflexivity.
  - do 4 (split; [reflexivity|]). right. left. split; reflexivity.
  - do 4 (split; [reflexivity|]). right. right. left. split; reflexivity.
Qed.

Lemma encodeURIComponent_step_chars (c : ascii) (r : string) :
  JS.all_chars reference_char
               (if Uri.unreserved c then String c r else Url.percent_char c r)
  = JS.all_chars reference_char r.
Proof. destruct c as [[] [] [] [] [] [] [] []]; reflexivity. Qed.

Lemma encodeURIComponent_chars (s : string) :
  JS.all_chars reference_char (Uri.encodeURIComponent s) = true.
Proof.
  induction s as [|c s IH]; [reflexivity|].
  cbn [Uri.encodeURIComponent]. rewrite encodeURIComponent_step_chars. exact IH.
Qed.

(** One step of [restore_slashes]: an escape of the slash is replaced, any
    other character is kept. *)
Lemma restore_slashes_step (c : ascii) (s : string) :
  (exists s', s = String "2" (String "F" s') /\ c = "%"%char
              /\ Uri.restore_slashes (String c s)
                 = String "/" (Uri.restore_slashes s'))
  \/ Uri.restore_slashes (String c s) = String c (Uri.restore_slashes s).
Proof.
  destruct c as [[] [] [] [] [] [] [] []]; try (right; reflexivity).
  destruct s as [|d s]; [right; reflexivity|].
  destruct d as [[] [] [] [] [] [] [] []]; try (right; reflexivity).
  destruct s as [|e s]; [right; reflexivity|].
  destruct e as [[] [] [] [] [] [] [] []]; try (right; reflexivity).
  left. exists s. repeat split.
Qed.

Lemma restore_slashes_chars_upto (n : nat) (s : string) :
  (String.length s <= n)%nat ->
  JS.all_chars reference_char s = true ->
  JS.all_chars reference_char (Uri.restore_slashes s) = true.
Proof.
  revert s. induction n as [|n IH]; intros s Hlen Hs.
  - destruct s; [reflexivity | simpl in Hlen; lia].
  - destruct s as [|c s]; [reflexivity|].
    simpl in Hlen. cbn [JS.all_chars] in Hs. apply andb_true_iff in Hs.
    destruct Hs as [Hc Hs].
    destruct (restore_slashes_step c s) as [(s' & -> & -> & ->) | ->].
    + cbn [JS.all_chars]. cbn [JS.all_chars] in Hs.
      apply andb_true_iff in Hs. destruct Hs as [_ Hs].
      apply andb_true_iff in Hs. destruct Hs as [_ Hs].
      rewrite (IH s'); [reflexivity | simpl in Hlen; lia | exact Hs].
    + cbn [JS.all_chars]. rewrite Hc. apply IH; [lia | exact Hs].
Qed.

(** X17: whatever the key, the reference that [fetchFromOrigin] resolves
    against the origin is [/transform/] followed by characters that are
    unreserved, the percent sign or the slash: a key cannot bring in a
    question mark, a hash, a backslash, an at-sign, a colon, a space or a
    control character. *)
Theorem transform_reference_chars (key : string) :
  exists encodedKey,
    transform_reference key = ("/transform/" ++ encodedKey)%string
    /\ JS.all_chars reference_char encodedKey = true
    /\ forall c, In c (chars encodedKey) ->
         ~ In c (chars "?#\@: ") /\ 32 < JS.code c < 127.
Proof.
  exists (Uri.restore_slashes (Uri.encodeURIComponent key)).
  split; [reflexivity|].
  assert (Hall : JS.all_chars reference_char
                   (Uri.restore_slashes (Uri.encodeURIComponent key)) = true)
    by (apply (restore_slashes_chars_upto _ _ (le_n _)), encodeURIComponent_chars).
  split; [exact Hall|].
  intros c Hc. rewrite all_chars_spec in Hall. specialize (Hall c Hc).
  clear Hc. destruct c as [[] [] [] [] [] [] [] []]; try discriminate Hall;
    (split; [simpl; intuition discriminate | vm_compute; split; reflexivity]).
Qed.

(** X18: a key that [validateKey] accepts is not changed on the way to
    the reference: the encoding and the restoring of slashes leave it as
    it is, so the reference that [fetchFromOrigin] hands to the URL
    constructor is [/transform/] followed by the key itself. *)
Theorem valid_key_reference (key : string) :
  validateKey key = true ->
  Uri.restore_slashes (Uri.encodeURIComponent key) = key
  /\ transform_reference key = ("/transform/" ++ key)%string.
Proof.
  intros Hv.
  assert (Hall : JS.all_chars safeChar key = true).
  { unfold validateKey, safePattern_test in Hv.
    destruct (JS.falsy key || JS.includes ".." key || JS.startsWith "/" key
              || JS.includes "//" key); [discriminate|].
    apply andb_true_iff in Hv. tauto. }
  assert (Hid : Uri.restore_slashes (Uri.encodeURIComponent key) = key).
  { clear Hv. induction key as [|c key IH]; [reflexivity|].
    simpl in Hall. apply andb_true_iff in Hall. destruct Hall as [Hc Hall].
    specialize (IH Hall). cbn [Uri.encodeURIComponent].
    destruct c as [[] [] [] [] [] [] [] []]; try discriminate Hc;
      vm_compute (Uri.unreserved _); cbv iota;
      try (cbn [Uri.restore_slashes]; rewrite IH; reflexivity).
    change (Url.percent_char "/" (Uri.encodeURIComponent key))
      with (String "%" (String "2" (String "F" (Uri.encodeURIComponent key)))).
    cbn [Uri.restore_slashes]. rewrite IH. reflexivity. }
  split; [exact Hid|].
  unfold transform_reference. rewrite Hid. reflexivity.
Qed.

Lemma valid_key_reference_witness :
  transform_reference "a/b-c_d.png" = "/transform/a/b-c_d.png".
Proof.
  exact (proj2 (valid_key_reference "a/b-c_d.png" eq_refl)).
Defined.

Lemma form_encode_step_form_chars (c : ascii) (r : string) :
  JS.all_chars form_char (if Ascii.eqb c " " then String "+" r
                          else if Form.unreserved c then String c r
                          else Url.percent_byte c r)
  = JS.all_chars form_char r.
Proof. destruct c as [[] [] [] [] [] [] [] []]; reflexivity. Qed.

Lemma form_encode_form_chars (s : string) :
  JS.all_chars form_char (Form.encode s) = true.
Proof.
  induction s as [|c s IH]; [reflexivity|].
  cbn [Form.encode]. rewrite form_encode_step_form_chars. exact IH.
Qed.

Lemma form_serialize_form_chars (l : list (string * string)) :
  JS.all_chars form_char (Form.serialize l) = true.
Proof.
  induction l as [|[n v] l IH]; [reflexivity|].
  destruct l as [|p l].
  - cbn [Form.serialize].
    change ("=" ++ Form.encode v)%string with (String "=" (Form.encode v)).
    rewrite all_chars_app. cbn [JS.all_chars].
    rewrite !form_encode_form_chars. reflexivity.
  - assert (Hs : Form.serialize ((n, v) :: p :: l)
                 = (Form.encode n
                    ++ String "=" (Form.encode v
                                   ++ String "&" (Form.serialize (p :: l))))%string)
      by (destruct p; reflexivity).
    rewrite Hs, all_chars_app. cbn [JS.all_chars].
    rewrite all_chars_app. cbn [JS.all_chars].
    rewrite !form_encode_form_chars, IH. reflexivity.
Qed.

Lemma form_char_passes_query (special : bool) (c : ascii) :
  form_char c = true ->
  Url.tab_or_newline c = false /\ Url.query_escaped special c = false
  /\ Ascii.eqb c "?" = false.
Proof.
  destruct special; destruct c as [[] [] [] [] [] [] [] []];
    intros H; try discriminate H; repeat split.
Qed.

Lemma query_encode_form_chars (special : bool) (s : string) :
  JS.all_chars form_char s = true -> Url.query_encode special s = s.
Proof.
  induction s as [|c s IH]; [reflexivity|].
  cbn [JS.all_chars Url.query_encode]. intros H. apply andb_true_iff in H.
  destruct H as [Hc Hs].
  destruct (form_char_passes_query special c Hc) as (-> & -> & _).
  rewrite (IH Hs). reflexivity.
Qed.

(** Giving a URL the serialised parameters as its search: no query when
    there is no parameter, the serialisation itself otherwise. *)
Lemma set_search_serialize (params : list (string * string)) (u : URL) :
  Url.set_search (Form.serialize params) u = set_query (forwarded_query params) u.
Proof.
  unfold Url.set_search, forwarded_query.
  pose proof (form_serialize_form_chars params) as Hchars.
  destruct params as [|[n v] l]; [reflexivity|].
  destruct (Form.serialize ((n, v) :: l)) as [|c s] eqn:Hs.
  - exfalso. destruct l as [|p l]; cbn [Form.serialize] in Hs.
    + destruct (Form.encode n); discriminate Hs.
    + destruct (Form.encode n); discriminate Hs.
  - cbn [JS.falsy].
    cbn [JS.all_chars] in Hchars. apply andb_true_iff in Hchars.
    destruct Hchars as [Hc Hrest].
    destruct (form_char_passes_query (Url.special_scheme (scheme u)) c Hc)
      as (_ & _ & Hq).
    assert (Hin : match String c s with
                  | String "?" rest => rest
                  | _ => String c s
                  end = String c s).
    { clear -Hq. destruct c as [[] [] [] [] [] [] [] []]; try reflexivity.
      discriminate Hq. }
    rewrite Hin, query_encode_form_chars; [reflexivity|].
    cbn [JS.all_chars]. rewrite Hc. exact Hrest.
Qed.

(** X19: the parameters go to the origin in the order in which they are
    given: the URL of the request that [fetchFromOrigin] sends is the URL
    the constructor resolved with, as its query, the serialisation of the
    parameter list as it stands (no query for an empty list); and parsing
    that query gives the list back. *)
Theorem fetchFromOrigin_forwards_params
        (P : Platform) (originUrl key : string)
        (params : list (string * string)) (w : World) (req : FetchRequest) :
  fetched (snd (fetchFromOrigin P originUrl key params w)) = fetched w ++ [req] ->
  exists resolved,
    URL_new P (transform_reference key) (Some originUrl) = Some resolved
    /\ fetch_url req = Url.href (set_query (forwarded_query params) resolved)
    /\ searchParams (set_query (forwarded_query params) resolved) = params.
Proof.
  destruct (fetchFromOrigin_cases P originUrl key params w)
    as [(base & target & _ & (t & Ht & ->) & _ & ->) | [-> | [_ ->]]]; cbn [fst snd];
    intros Hsent; try (exfalso; exact (app_one_not_self _ _ Hsent)).
  rewrite fetched_sent in Hsent. apply List.app_inv_head in Hsent.
  injection Hsent as <-. exists t. split; [exact Ht|].
  rewrite set_search_serialize. split; [reflexivity|].
  unfold searchParams, forwarded_query. cbn [query set_query].
  destruct params as [|p l]; [reflexivity | apply form_parse_serialize].
Qed.

Lemma fetchFromOrigin_forwards_params_witness :
  exists resolved,
    Example.URL_new "/transform/a.png" (Some "https://origin.example") = Some resolved
    /\ "https://origin.example/transform/a.png?w=100&h=50&a=1"
       = Url.href (set_query (forwarded_query [("w", "100"); ("h", "50"); ("a", "1")])
                             resolved)
    /\ searchParams (set_query (forwarded_query [("w", "100"); ("h", "50"); ("a", "1")])
                               resolved)
       = [("w", "100"); ("h", "50"); ("a", "1")].
Proof.
  exact (fetchFromOrigin_forwards_params Example.platform "https://origin.example"
           "a.png" [("w", "100"); ("h", "50"); ("a", "1")] Example.world
           {| fetch_url := "https://origin.example/transform/a.png?w=100&h=50&a=1";
              fetch_method := "GET"; fetch_timeout := 30000 |}
           eq_refl).
Defined.

(** ** The sniffer looks at twelve bytes *)

Lemma byte_is_firstn (n i : nat) (l : list Z) (v : Z) :
  (i < n)%nat -> byte_is (firstn n l) i v = byte_is l i v.
Proof.
  intros Hi. unfold byte_is. f_equal.
  revert i l Hi. induction n as [|n IH]; intros i l Hi; [lia|].
  destruct l as [|x l]; [reflexivity|].
  destruct i as [|i]; [reflexivity|]. cbn [firstn nth_error]. apply IH. lia.
Qed.

Lemma detectMimeType_first_twelve (buffer : ArrayBuffer) :
  detectMimeType buffer = detectMimeType (firstn 12 buffer).
Proof.
  unfold detectMimeType. cbv zeta.
  rewrite !(byte_is_firstn 16) by lia.
  rewrite !(byte_is_firstn 12) by lia.
  reflexivity.
Qed.

(** X20: the answer of [detectMimeType] depends on the first twelve bytes
    of the buffer only: two buffers that agree there are classified
    alike, whatever follows. *)
Theorem detectMimeType_reads_twelve_bytes (buffer buffer' : ArrayBuffer) :
  firstn 12 buffer = firstn 12 buffer' ->
  detectMimeType buffer = detectMimeType buffer'.
Proof.
  intros H.
  rewrite (detectMimeType_first_twelve buffer), (detectMimeType_first_twelve buffer'), H.
  reflexivity.
Qed.

Lemma detectMimeType_reads_twelve_bytes_witness :
  detectMimeType (Example.png ++ [1; 2; 3]) = detectMimeType Example.png.
Proof.
  apply detectMimeType_reads_twelve_bytes. reflexivity.
Defined.
